(** * Span reconciliation and redaction of [anonymizer.py]

    A shallow embedding of [anonymize_with_stanza]: the two span
    extractors ([_spans_from_doc_ents], [_spans_from_tokens]) and the
    sort-and-sweep redaction pass that follows them.  The Stanza pipeline is
    an external collaborator; the parsed document it returns is an input of
    the model. *)

From Stdlib Require Import String Ascii.
From Stdlib Require Import ZArith List Bool Lia.
From Stdlib Require Import Sorting.Sorted Sorting.Permutation.
Import ListNotations.
Open Scope Z_scope.

(* ================================================================== *)
(** * Python strings *)
(* ================================================================== *)

(** A Python [str] is a sequence of characters addressed by position. *)
Definition str : Type := list ascii.

(** String literals of the source. *)
Definition lit (s : String.string) : str := String.list_ascii_of_string s.

Fixpoint str_eqb (a b : str) : bool :=
  match a, b with
  | [], [] => true
  | x :: a', y :: b' => Ascii.eqb x y && str_eqb a' b'
  | _, _ => false
  end.

(** [x in (a, b, c)]: membership in a tuple of strings, by [==]. *)
Definition in_tuple (x : str) (t : list str) : bool := existsb (str_eqb x) t.

(** [len(text)] *)
Definition len (t : str) : Z := Z.of_nat (List.length t).

(** How a slice bound is adjusted: a negative bound counts from the end and
    is floored at 0, any other bound is capped at the length. *)
Definition clamp_index (n i : Z) : Z :=
  if i <? 0 then Z.max 0 (i + n) else Z.min i n.

(** [text[a:b]]; never raises, whatever the bounds. *)
Definition slice (t : str) (a b : Z) : str :=
  let lo := clamp_index (len t) a in
  let hi := clamp_index (len t) b in
  firstn (Z.to_nat (hi - lo)) (skipn (Z.to_nat lo) t).

(** [text[a:]] *)
Definition slice_from (t : str) (a : Z) : str :=
  skipn (Z.to_nat (clamp_index (len t) a)) t.

(** ["".join(parts)] *)
Definition join (parts : list str) : str := concat parts.

(** [s.split(sep)] for a one-character separator: always at least one
    part, empty parts kept. *)
Fixpoint split_on (sep : ascii) (s : str) : list str :=
  match s with
  | [] => [[]]
  | c :: r =>
      if Ascii.eqb c sep then [] :: split_on sep r
      else match split_on sep r with
           | [] => [[c]]
           | p :: ps => (c :: p) :: ps
           end
  end.

(* ================================================================== *)
(** * Spans and the stable sort by start *)
(* ================================================================== *)

(** The tuples [(start, end, label)] of the source. *)
Definition Span : Type := (Z * Z * str)%type.

Definition span_start (sp : Span) : Z := fst (fst sp).
Definition span_end (sp : Span) : Z := snd (fst sp).
Definition span_label (sp : Span) : str := snd sp.

(** [sorted(spans, key=lambda x: x[0])].  Python's sort is stable, so its
    result is the one permutation that is ordered by key and keeps equal
    keys in input order; insertion from the right computes it. *)
Fixpoint insert_by_start (x : Span) (l : list Span) : list Span :=
  match l with
  | [] => [x]
  | y :: r =>
      if span_start x <=? span_start y then x :: y :: r
      else y :: insert_by_start x r
  end.

Fixpoint sorted_by_start (l : list Span) : list Span :=
  match l with
  | [] => []
  | x :: r => insert_by_start x (sorted_by_start r)
  end.

(* ================================================================== *)
(** * The redaction sweep (lines 127-137) *)
(* ================================================================== *)

(** The two variables the loop carries. *)
Record sweep_state : Type := mk_sweep
  { result_parts : list str;
    last_idx : Z }.

(** [f"[{label}]"] *)
Definition bracket (label : str) : str := lit "[" ++ label ++ lit "]".

(** The test guarding [continue]. *)
Definition skipped (last : Z) (sp : Span) : bool :=
  (span_start sp >=? span_end sp) || (span_start sp <? last).

(** One iteration of [for start, end, label in spans_sorted]. *)
Definition sweep_body (text : str) (st : sweep_state) (sp : Span) : sweep_state :=
  if skipped (last_idx st) sp then st
  else
    {| result_parts :=
         (result_parts st ++ [slice text (last_idx st) (span_start sp)])
           ++ [bracket (span_label sp)];
       last_idx := span_end sp |}.

Definition sweep_init : sweep_state := {| result_parts := []; last_idx := 0 |}.

Definition sweep (text : str) (spans_sorted : list Span) : sweep_state :=
  fold_left (sweep_body text) spans_sorted sweep_init.

(** Sort, sweep, append the tail, join. *)
Definition redact (text : str) (spans : list Span) : str :=
  let st := sweep text (sorted_by_start spans) in
  join (result_parts st ++ [slice_from text (last_idx st)]).

(** The spans for which an iteration started with [last_idx = last] does
    not [continue], in the order the loop meets them. *)
Fixpoint accepted_from (last : Z) (l : list Span) : list Span :=
  match l with
  | [] => []
  | sp :: r =>
      if skipped last sp then accepted_from last r
      else sp :: accepted_from (span_end sp) r
  end.

Definition accepted (spans : list Span) : list Span :=
  accepted_from 0 (sorted_by_start spans).

(* ================================================================== *)
(** * The token-based fallback extractor (lines 77-121) *)
(* ================================================================== *)

(** A token of the parsed document.  [ner] is [None] when the attribute
    is absent, which [getattr(token, "ner", "O")] reads as ["O"]. *)
Record Token : Type := mk_token
  { ner : option str;
    start_char : Z;
    end_char : Z }.

(** A sentence; [tokens] is [None] when the attribute is absent. *)
Record Sentence : Type := mk_sentence
  { tokens : option (list Token) }.

(** The variables of [_spans_from_tokens]; [cur_*] are [None] while no
    span is open. *)
Record scan_state : Type := mk_scan
  { spans_local : list Span;
    cur_start : option Z;
    cur_end : option Z;
    cur_type : option str }.

Definition scan_init : scan_state :=
  {| spans_local := []; cur_start := None; cur_end := None; cur_type := None |}.

(** [cur_start is not None and cur_end is not None and cur_type is not None],
    with the tuple that is then appended. *)
Definition open_span (st : scan_state) : option Span :=
  match cur_start st, cur_end st, cur_type st with
  | Some s, Some e, Some t => Some (s, e, t)
  | _, _, _ => None
  end.

(** [spans_local] after the guarded [append] of the open span. *)
Definition with_open (st : scan_state) : list Span :=
  match open_span st with
  | Some sp => spans_local st ++ [sp]
  | None => spans_local st
  end.

(** [cur_start = cur_end = cur_type = None] *)
Definition cleared (spans : list Span) : scan_state :=
  {| spans_local := spans; cur_start := None; cur_end := None; cur_type := None |}.

(** [cur_type == ent_type] *)
Definition type_is (cur : option str) (ent_type : str) : bool :=
  match cur with
  | Some t => str_eqb t ent_type
  | None => false
  end.

(** The body of [for token in ...]. *)
Definition token_body (st : scan_state) (token : Token) : scan_state :=
  let ner_tag := match ner token with Some t => t | None => lit "O" end in
  if str_eqb ner_tag (lit "O") then cleared (with_open st)
  else
    let parts := split_on "-"%char ner_tag in
    let prefix := hd [] parts in
    let ent_type := last parts [] in
    if in_tuple prefix [lit "B"; lit "S"; lit "U"] then
      let st1 :=
        {| spans_local := with_open st;
           cur_start := Some (start_char token);
           cur_end := Some (end_char token);
           cur_type := Some ent_type |} in
      if in_tuple prefix [lit "S"; lit "U"] then cleared (with_open st1)
      else st1
    else if in_tuple prefix [lit "I"; lit "E"; lit "L"] then
      match (if type_is (cur_type st) ent_type then cur_start st else None) with
      | Some cs =>
          let st1 :=
            {| spans_local := spans_local st;
               cur_start := cur_start st;
               cur_end := Some (end_char token);
               cur_type := cur_type st |} in
          if in_tuple prefix [lit "E"; lit "L"] then
            cleared (match cur_end st1, cur_type st1 with
                     | Some ce, Some ct => spans_local st1 ++ [(cs, ce, ct)]
                     | _, _ => spans_local st1
                     end)
          else st1
      | None =>
          cleared (spans_local st ++ [(start_char token, end_char token, ent_type)])
      end
    else st.

(** The code after the inner loop: an open span does not cross the
    sentence boundary. *)
Definition sentence_end (st : scan_state) : scan_state :=
  match open_span st with
  | Some sp => cleared (spans_local st ++ [sp])
  | None => st
  end.

(** The body of [for sent in ...]. *)
Definition sentence_body (st : scan_state) (sent : Sentence) : scan_state :=
  let toks := match tokens sent with Some l => l | None => [] end in
  sentence_end (fold_left token_body toks st).

(** [_spans_from_tokens] on the value of [getattr(doc_obj, "sentences", [])]. *)
Definition scan_sentences (sents : list Sentence) : list Span :=
  spans_local (fold_left sentence_body sents scan_init).

(* ================================================================== *)
(** * The primary extractor and the whole call (lines 61-75, 123-137) *)
(* ================================================================== *)

Section Extractor.

(** Attribute values of an entity record, as the tagger left them, and the
    two builtins applied to them; [None] where the builtin raises. *)
Variable PyObj : Type.
Variable py_int : PyObj -> option Z.
Variable py_str : PyObj -> option str.

(** An entity record; a field is [None] when the attribute is missing,
    so that reading it raises. *)
Record Ent : Type := mk_ent
  { ent_start_char : option PyObj;
    ent_end_char : option PyObj;
    ent_type : option PyObj }.

(** The parsed document; [ents] and [sentences] are [None] when absent. *)
Record Document : Type := mk_doc
  { ents : option (list Ent);
    sentences : option (list Sentence) }.

(** The [try] block: the three conversions in order, [None] as soon as
    one of them raises. *)
Definition convert_ent (ent : Ent) : option Span :=
  match ent_start_char ent with
  | None => None
  | Some a =>
    match py_int a with
    | None => None
    | Some start =>
      match ent_end_char ent with
      | None => None
      | Some b =>
        match py_int b with
        | None => None
        | Some end_ =>
          match ent_type ent with
          | None => None
          | Some c =>
            match py_str c with
            | None => None
            | Some label => Some (start, end_, label)
            end
          end
        end
      end
    end
  end.

(** The body of [for ent in ents]. *)
Definition ent_body (spans : list Span) (ent : Ent) : list Span :=
  match convert_ent ent with
  | None => spans
  | Some sp =>
      if span_start sp <? span_end sp then spans ++ [sp] else spans
  end.

Definition spans_from_doc_ents (doc_obj : Document) : list Span :=
  match ents doc_obj with
  | None => []
  | Some [] => []
  | Some l => fold_left ent_body l []
  end.

Definition spans_from_tokens (doc_obj : Document) : list Span :=
  scan_sentences (match sentences doc_obj with Some l => l | None => [] end).

(** The spans handed to the sweep: the primary ones, or the fallback
    ones when there is none. *)
Definition entity_spans (doc : Document) : list Span :=
  match spans_from_doc_ents doc with
  | [] => spans_from_tokens doc
  | spans => spans
  end.

(** The whole call, given the document the pipeline returned for
    [text]. *)
Definition anonymize_with_stanza (text : str) (doc : Document) : str :=
  redact text (entity_spans doc).

End Extractor.

Arguments mk_ent {PyObj}.
Arguments ent_start_char {PyObj}.
Arguments ent_end_char {PyObj}.
Arguments ent_type {PyObj}.
Arguments mk_doc {PyObj}.
Arguments ents {PyObj}.
Arguments sentences {PyObj}.
Arguments convert_ent {PyObj}.
Arguments ent_body {PyObj}.
Arguments spans_from_doc_ents {PyObj}.
Arguments spans_from_tokens {PyObj}.
Arguments entity_spans {PyObj}.
Arguments anonymize_with_stanza {PyObj}.

(* ================================================================== *)
(** * Vocabulary of the properties *)
(* ================================================================== *)

(** The characters of [t] whose position satisfies [keep], in order; the
    first character of [t] stands at position [i]. *)
Fixpoint pick_from (keep : Z -> bool) (i : Z) (t : str) : str :=
  match t with
  | [] => []
  | c :: r =>
      if keep i then c :: pick_from keep (i + 1) r
      else pick_from keep (i + 1) r
  end.

Definition pick (keep : Z -> bool) (t : str) : str := pick_from keep 0 t.

(** Position [i] lies in the half-open range of [sp]. *)
Definition inside (sp : Span) (i : Z) : bool :=
  (span_start sp <=? i) && (i <? span_end sp).

Definition outside_all (acc : list Span) (i : Z) : bool :=
  forallb (fun sp => negb (inside sp i)) acc.

(** The output seen as pieces: text copied from the input, or a label
    standing for a span. *)
Inductive piece : Type :=
  | Verbatim (s : str)
  | Label (l : str).

Definition render (p : piece) : str :=
  match p with
  | Verbatim s => s
  | Label l => lit "[" ++ l ++ lit "]"
  end.

Definition copied (p : piece) : str :=
  match p with
  | Verbatim s => s
  | Label _ => []
  end.

(** The pieces determined, by position alone, by a list of spans read from
    position [last] on: the characters before each span, its label, and
    the characters after the last span. *)
Fixpoint pieces (text : str) (last : Z) (acc : list Span) : list piece :=
  match acc with
  | [] => [Verbatim (pick (fun i => last <=? i) text)]
  | sp :: r =>
      Verbatim (pick (fun i => (last <=? i) && (i <? span_start sp)) text)
        :: Label (span_label sp)
        :: pieces text (span_end sp) r
  end.

(** The parts the loop appends for a list of spans none of which is
    skipped, and the value of [last_idx] it ends with. *)
Fixpoint parts_of (text : str) (last : Z) (acc : list Span) : list str :=
  match acc with
  | [] => []
  | sp :: r =>
      slice text last (span_start sp) :: bracket (span_label sp)
        :: parts_of text (span_end sp) r
  end.

Fixpoint final_idx (last : Z) (acc : list Span) : Z :=
  match acc with
  | [] => last
  | sp :: r => final_idx (span_end sp) r
  end.

(** The order of the sort key. *)
Definition le_start (a b : Span) : Prop := span_start a <= span_start b.

(** Spans that follow one another from [last] on: each is non-empty and
    starts no earlier than the previous one ends. *)
Fixpoint chain (last : Z) (acc : list Span) : Prop :=
  match acc with
  | [] => True
  | sp :: r =>
      last <= span_start sp /\ span_start sp < span_end sp /\ chain (span_end sp) r
  end.

(** [a] is [b] with some elements left out. *)
Inductive Subseq {A : Type} : list A -> list A -> Prop :=
  | Subseq_nil : Subseq [] []
  | Subseq_skip x a b : Subseq a b -> Subseq a (x :: b)
  | Subseq_keep x a b : Subseq a b -> Subseq (x :: a) (x :: b).

(** The [for] loop of the sweep as a machine: the spans still to visit and
    the loop variables. *)
Inductive loop_step (text : str) :
    list Span * sweep_state -> list Span * sweep_state -> Prop :=
  | loop_continue sp rest st :
      skipped (last_idx st) sp = true ->
      loop_step text (sp :: rest, st) (rest, st)
  | loop_replace sp rest st :
      skipped (last_idx st) sp = false ->
      loop_step text (sp :: rest, st)
        (rest,
         {| result_parts :=
              (result_parts st ++ [slice text (last_idx st) (span_start sp)])
                ++ [bracket (span_label sp)];
            last_idx := span_end sp |}).

(** [n] iterations lead from one configuration to another. *)
Inductive loop_steps (text : str) :
    nat -> list Span * sweep_state -> list Span * sweep_state -> Prop :=
  | loop_done c : loop_steps text O c c
  | loop_next n c1 c2 c3 :
      loop_step text c1 c2 -> loop_steps text n c2 c3 ->
      loop_steps text (S n) c1 c3.

(** [parts[0]] and [parts[-1]] of [ner_tag.split("-")]. *)
Definition tag_prefix (tag : str) : str := hd [] (split_on "-"%char tag).
Definition tag_type (tag : str) : str := last (split_on "-"%char tag) [].

(** Tokens as a tokenizer lays them out: none is empty and their starts
    do not decrease. *)
Definition tokens_in_order (toks : list Token) : Prop :=
  Forall (fun t => start_char t < end_char t) toks /\
  StronglySorted (fun a b => start_char a <= start_char b) toks.

Definition span_valid (sp : Span) : Prop := span_start sp < span_end sp.

(** A field of an entity record read and converted. *)
Definition read_as {PyObj B : Type} (conv : PyObj -> option B)
    (field : option PyObj) : option B :=
  match field with
  | Some v => conv v
  | None => None
  end.

(** What one entity record contributes to the primary span list. *)
Definition contribution {PyObj : Type} (py_int : PyObj -> option Z)
    (py_str : PyObj -> option str) (ent : Ent PyObj) : list Span :=
  match read_as py_int (ent_start_char ent),
        read_as py_int (ent_end_char ent),
        read_as py_str (ent_type ent) with
  | Some s, Some e, Some l => if s <? e then [(s, e, l)] else []
  | _, _, _ => []
  end.

(** What holds of the scan variables while the tokens [rest] of a
    sentence are still to come: the spans emitted so far are non-empty,
    and either no span is open, or the open one is non-empty and starts no
    later than any token to come. *)
Definition scan_ok (st : scan_state) (rest : list Token) : Prop :=
  Forall span_valid (spans_local st) /\
  match cur_start st, cur_end st, cur_type st with
  | None, None, None => True
  | Some cs, Some ce, Some _ =>
      cs < ce /\ Forall (fun t => cs <= start_char t) rest
  | _, _, _ => False
  end.

(** The same between two sentences, where no span is open. *)
Definition scan_closed (st : scan_state) : Prop :=
  Forall span_valid (spans_local st) /\
  cur_start st = None /\ cur_end st = None /\ cur_type st = None.

(** The sentence list [_spans_from_tokens] walks. *)
Definition doc_sentences {PyObj : Type} (doc : Document PyObj) : list Sentence :=
  match sentences doc with Some l => l | None => [] end.

Definition sentence_tokens (sent : Sentence) : list Token :=
  match tokens sent with Some l => l | None => [] end.

(** Attribute values for examples: an integer, a string, or [None]; [int]
    accepts the first and [str] returns the second as it is. *)
Inductive sample_obj : Type :=
  | ObjInt (z : Z)
  | ObjStr (s : str)
  | ObjNone.

Definition sample_int (v : sample_obj) : option Z :=
  match v with ObjInt z => Some z | _ => None end.

Definition sample_str (v : sample_obj) : option str :=
  match v with ObjStr s => Some s | ObjNone => Some (lit "None") | ObjInt _ => None end.

(** A span the sweep can accept at all: it does not start before the
    text and is not empty. *)
Definition usable (sp : Span) : bool :=
  (0 <=? span_start sp) && (span_start sp <? span_end sp).

(** Two spans share no position. *)
Definition disjoint (a b : Span) : Prop :=
  span_end a <= span_start b \/ span_end b <= span_start a.

(** A scan state with the spans [l] put before its own. *)
Definition prepend (l : list Span) (st : scan_state) : scan_state :=
  {| spans_local := l ++ spans_local st;
     cur_start := cur_start st;
     cur_end := cur_end st;
     cur_type := cur_type st |}.

(** The three [cur_*] variables are set together or not at all. *)
Definition cur_together (st : scan_state) : Prop :=
  match cur_start st, cur_end st, cur_type st with
  | None, None, None => True
  | Some _, Some _, Some _ => True
  | _, _, _ => False
  end.

(** A token read as ["O"]: tagged so, or without a [ner] attribute. *)
Definition untagged (token : Token) : bool :=
  match ner token with
  | Some tag => str_eqb tag (lit "O")
  | None => true
  end.

(** Tokens laid out one after the other from position [lo] on: none is
    empty and each starts no earlier than the previous one ends. *)
Fixpoint laid_out (lo : Z) (toks : list Token) : Prop :=
  match toks with
  | [] => True
  | t :: r =>
      lo <= start_char t /\ start_char t < end_char t /\ laid_out (end_char t) r
  end.

(** What holds of the scan variables when the tokens still to come start
    at [lo] or later: the emitted spans follow one another, and the open
    span, if any, comes after them and ends by [lo]. *)
Definition scan_below (st : scan_state) (lo : Z) : Prop :=
  chain 0 (spans_local st) /\
  match cur_start st, cur_end st, cur_type st with
  | None, None, None => final_idx 0 (spans_local st) <= lo
  | Some cs, Some ce, Some _ =>
      final_idx 0 (spans_local st) <= cs /\ cs < ce /\ ce <= lo
  | _, _, _ => False
  end.

(** The span [sp] is read off the tokens [toks]: it starts where one of
    them starts, takes its label from that token's tag, and ends where one
    of them ends. *)
Definition from_tokens (toks : list Token) (sp : Span) : Prop :=
  exists t1 t2 tag,
    In t1 toks /\ In t2 toks /\ ner t1 = Some tag /\
    span_start sp = start_char t1 /\ span_end sp = end_char t2 /\
    span_label sp = last (split_on "-"%char tag) [].

Definition scan_from (toks : list Token) (st : scan_state) : Prop :=
  Forall (from_tokens toks) (spans_local st) /\
  match cur_start st, cur_end st, cur_type st with
  | None, None, None => True
  | Some cs, Some ce, Some ct => from_tokens toks (cs, ce, ct)
  | _, _, _ => False
  end.

(** The token carries a tag with the given prefix and type. *)
Definition tagged (prefix ty : str) (token : Token) : Prop :=
  exists tag, ner token = Some tag /\ tag_prefix tag = prefix /\ tag_type tag = ty.

(* ================================================================== *)
(** * The pipeline cache (lines 12-43) *)
(* ================================================================== *)

Section PipelineCache.

(** Pipeline objects and exceptions of the library. *)
Variable Pipeline : Type.
Variable Exc : Type.

(** What the library does when one call of [_ensure_pipeline] reaches it:
    [stanza.download] returns or raises, and so does [stanza.Pipeline]. *)
Record library_answer : Type := mk_answer
  { download_answer : unit + Exc;
    pipeline_answer : Pipeline + Exc }.

Inductive library_call : Type :=
  | CallDownload
  | CallPipeline.

(** [try: stanza.download(...) except Exception: pass] *)
Definition download_quietly (a : unit + Exc) : unit :=
  match a with
  | inl u => u
  | inr _ => tt
  end.

(** [_ensure_pipeline], with the global [_stanza_pipeline] passed in and
    out: the value returned or the exception raised, the new value of the
    global, and the library calls made.  The body runs under
    [_pipeline_lock], so calls do not interleave. *)
Definition ensure_pipeline (cache : option Pipeline) (a : library_answer) :
    (Pipeline + Exc) * option Pipeline * list library_call :=
  match cache with
  | Some p => (inl p, cache, [])
  | None =>
      let _ := download_quietly (download_answer a) in
      match pipeline_answer a with
      | inl p => (inl p, Some p, [CallDownload; CallPipeline])
      | inr e => (inr e, None, [CallDownload; CallPipeline])
      end
  end.

(** A series of calls, one library answer at hand for each. *)
Fixpoint ensure_calls (cache : option Pipeline) (answers : list library_answer) :
    list (Pipeline + Exc) * option Pipeline * list library_call :=
  match answers with
  | [] => ([], cache, [])
  | a :: r =>
      let '(res, c1, calls1) := ensure_pipeline cache a in
      let '(rs, c2, calls2) := ensure_calls c1 r in
      (res :: rs, c2, calls1 ++ calls2)
  end.

End PipelineCache.

Arguments mk_answer {Pipeline Exc}.
Arguments download_answer {Pipeline Exc}.
Arguments pipeline_answer {Pipeline Exc}.
Arguments download_quietly {Exc}.
Arguments ensure_pipeline {Pipeline Exc}.
Arguments ensure_calls {Pipeline Exc}.

(* ================================================================== *)
(** * Loading the pipeline from the window (main.py, lines 80-110) *)
(* ================================================================== *)

(** The properties of [RootWidget] that loading reads or writes. *)
Record widget : Type := mk_widget
  { status_text : str;
    model_info_text : str;
    pipeline_loaded : bool;
    pipeline_loading : bool }.

Definition widget_init : widget :=
  {| status_text := lit "Ready. Stanza model will be loaded on first run.";
     model_info_text := lit "Models: not checked";
     pipeline_loaded := false;
     pipeline_loading := false |}.

(** The statement a thread running [_load_pipeline_background] is about
    to execute; [AtStatusFailed msg] is the handler entered with an
    exception that prints as [msg]. *)
Inductive loader_pc : Type :=
  | AtStatusChecking
  | AtInfoLocating
  | AtEnsure
  | AtSetLoaded
  | AtClearLoading
  | AtStatusReady
  | AtInfoAvailable
  | AtStatusFailed (msg : str)
  | AtInfoUnavailable
  | Finished (ok : bool).

(** One statement of [_load_pipeline_background]. *)
Inductive loader_step : widget -> loader_pc -> widget -> loader_pc -> Prop :=
  | load_status_checking w :
      loader_step w AtStatusChecking
        {| status_text := lit "Checking / loading Stanza models...";
           model_info_text := model_info_text w;
           pipeline_loaded := pipeline_loaded w;
           pipeline_loading := pipeline_loading w |} AtInfoLocating
  | load_info_locating w :
      loader_step w AtInfoLocating
        {| status_text := status_text w;
           model_info_text := lit "Models: downloading or locating models...";
           pipeline_loaded := pipeline_loaded w;
           pipeline_loading := pipeline_loading w |} AtEnsure
  | load_ensure_returns w :
      loader_step w AtEnsure w AtSetLoaded
  | load_ensure_raises w msg :
      loader_step w AtEnsure w (AtStatusFailed msg)
  | load_set_loaded w :
      loader_step w AtSetLoaded
        {| status_text := status_text w;
           model_info_text := model_info_text w;
           pipeline_loaded := true;
           pipeline_loading := pipeline_loading w |} AtClearLoading
  | load_clear_loading w :
      loader_step w AtClearLoading
        {| status_text := status_text w;
           model_info_text := model_info_text w;
           pipeline_loaded := pipeline_loaded w;
           pipeline_loading := false |} AtStatusReady
  | load_status_ready w :
      loader_step w AtStatusReady
        {| status_text := lit "Stanza loaded. Ready.";
           model_info_text := model_info_text w;
           pipeline_loaded := pipeline_loaded w;
           pipeline_loading := pipeline_loading w |} AtInfoAvailable
  | load_info_available w :
      loader_step w AtInfoAvailable
        {| status_text := status_text w;
           model_info_text := lit "Models: available";
           pipeline_loaded := pipeline_loaded w;
           pipeline_loading := pipeline_loading w |} (Finished true)
  | load_status_failed w msg :
      loader_step w (AtStatusFailed msg)
        {| status_text := lit "Failed to load Stanza: " ++ msg;
           model_info_text := model_info_text w;
           pipeline_loaded := pipeline_loaded w;
           pipeline_loading := pipeline_loading w |} AtInfoUnavailable
  | load_info_unavailable w :
      loader_step w AtInfoUnavailable
        {| status_text := status_text w;
           model_info_text := lit "Models: not available";
           pipeline_loaded := pipeline_loaded w;
           pipeline_loading := pipeline_loading w |} (Finished false).

(** Where the main thread stands in [RootWidget.ensure_pipeline]: outside
    of it, after [not self._pipeline_loading] came out true, before
    [self._pipeline_loading = True], before [thread.start()]. *)
Inductive main_pc : Type :=
  | Idle
  | TestLoaded
  | SetLoading
  | StartThread.

(** The window: the widget, the main thread, and the loader threads
    started so far. *)
Record gui : Type := mk_gui
  { root : widget;
    main : main_pc;
    loaders : list loader_pc }.

Definition gui_init : gui :=
  {| root := widget_init; main := Idle; loaders := [] |}.

(** One step of the window.  [ensure_pipeline] runs on the main thread
    (from [on_start] and from [anonymize_text]); a loader thread executes
    its next statement; the other methods and their worker threads write
    the two texts only. *)
Inductive gui_step : gui -> gui -> Prop :=
  | main_is_loading g :
      main g = Idle -> pipeline_loading (root g) = true ->
      gui_step g g
  | main_not_loading g :
      main g = Idle -> pipeline_loading (root g) = false ->
      gui_step g {| root := root g; main := TestLoaded; loaders := loaders g |}
  | main_is_loaded g :
      main g = TestLoaded -> pipeline_loaded (root g) = true ->
      gui_step g {| root := root g; main := Idle; loaders := loaders g |}
  | main_not_loaded g :
      main g = TestLoaded -> pipeline_loaded (root g) = false ->
      gui_step g {| root := root g; main := SetLoading; loaders := loaders g |}
  | main_set_loading g :
      main g = SetLoading ->
      gui_step g
        {| root := {| status_text := status_text (root g);
                      model_info_text := model_info_text (root g);
                      pipeline_loaded := pipeline_loaded (root g);
                      pipeline_loading := true |};
           main := StartThread;
           loaders := loaders g |}
  | main_start_thread g :
      main g = StartThread ->
      gui_step g
        {| root := root g; main := Idle;
           loaders := loaders g ++ [AtStatusChecking] |}
  | loader_runs g before pc after w' pc' :
      loaders g = before ++ pc :: after ->
      loader_step (root g) pc w' pc' ->
      gui_step g {| root := w'; main := main g; loaders := before ++ pc' :: after |}
  | texts_written g status info :
      gui_step g
        {| root := {| status_text := status;
                      model_info_text := info;
                      pipeline_loaded := pipeline_loaded (root g);
                      pipeline_loading := pipeline_loading (root g) |};
           main := main g;
           loaders := loaders g |}.

Inductive gui_steps : gui -> gui -> Prop :=
  | gui_here g : gui_steps g g
  | gui_then g1 g2 g3 : gui_steps g1 g2 -> gui_step g2 g3 -> gui_steps g1 g3.

(** The values of [pipeline_loaded] and [_pipeline_loading] that go with
    the place of the one loader thread. *)
Definition loader_flags (pc : loader_pc) : bool * bool :=
  match pc with
  | AtClearLoading => (true, true)
  | AtStatusReady | AtInfoAvailable | Finished true => (true, false)
  | _ => (false, true)
  end.

Definition gui_ok (g : gui) : Prop :=
  match loaders g with
  | [] =>
      pipeline_loaded (root g) = false /\
      pipeline_loading (root g)
      = match main g with StartThread => true | _ => false end
  | [pc] =>
      (pipeline_loaded (root g), pipeline_loading (root g)) = loader_flags pc /\
      (main g = Idle \/ (main g = TestLoaded /\ pipeline_loaded (root g) = true))
  | _ :: _ :: _ => False
  end.

(** The load has failed and nothing moves any more. *)
Definition gui_failed (g : gui) : Prop :=
  loaders g = [Finished false] /\ main g = Idle /\
  pipeline_loaded (root g) = false /\ pipeline_loading (root g) = true.

(* ================================================================== *)
(** * Strings: equality, slices and positions *)
(* ================================================================== *)

Lemma str_eqb_eq (a b : str) : str_eqb a b = true <-> a = b.
Proof.
  revert b; induction a as [|x a IH]; intros [|y b]; simpl;
    try (split; [discriminate | congruence]); try tauto.
  rewrite andb_true_iff, Ascii.eqb_eq, IH.
  split; [intros [-> ->]; reflexivity | intros H; inversion H; auto].
Qed.

Lemma str_eqb_refl (a : str) : str_eqb a a = true.
Proof. apply str_eqb_eq; reflexivity. Qed.

Lemma split_on_nonempty (sep : ascii) (s : str) : split_on sep s <> [].
Proof.
  induction s as [|c r IH]; simpl; [discriminate|].
  destruct (Ascii.eqb c sep); [discriminate|].
  destruct (split_on sep r); discriminate.
Qed.

Lemma pick_from_ext (f g : Z -> bool) (t : str) : forall i,
  (forall j, i <= j -> f j = g j) -> pick_from f i t = pick_from g i t.
Proof.
  induction t as [|c r IH]; intros i H; simpl; [reflexivity|].
  rewrite (H i) by lia. rewrite (IH (i + 1)) by (intros; apply H; lia).
  reflexivity.
Qed.

Lemma pick_from_none (f : Z -> bool) (t : str) : forall i,
  (forall j, i <= j -> f j = false) -> pick_from f i t = [].
Proof.
  induction t as [|c r IH]; intros i H; simpl; [reflexivity|].
  rewrite (H i) by lia. apply IH. intros; apply H; lia.
Qed.

(** Characters picked below a position followed by characters picked from
    it on are the characters picked by either test. *)
Lemma pick_from_app (f g : Z -> bool) (m : Z) (t : str) : forall i,
  (forall j, f j = true -> j < m) ->
  (forall j, g j = true -> m <= j) ->
  pick_from f i t ++ pick_from g i t = pick_from (fun j => f j || g j) i t.
Proof.
  induction t as [|c r IH]; intros i Hf Hg; simpl; [reflexivity|].
  destruct (f i) eqn:Ef; simpl.
  - destruct (g i) eqn:Eg.
    + apply Hf in Ef. apply Hg in Eg. lia.
    + simpl. f_equal. apply IH; assumption.
  - destruct (g i) eqn:Eg.
    + rewrite <- (IH (i + 1)) by assumption.
      rewrite (pick_from_none f r (i + 1)); [reflexivity|].
      intros j Hj. destruct (f j) eqn:E; [|reflexivity].
      apply Hf in E. apply Hg in Eg. lia.
    + apply IH; assumption.
Qed.

Lemma pick_from_range (a b : Z) (t : str) : forall i,
  pick_from (fun j => (a <=? j) && (j <? b)) i t
  = firstn (Z.to_nat (b - i) - Z.to_nat (a - i)) (skipn (Z.to_nat (a - i)) t).
Proof.
  induction t as [|c r IH]; intros i; simpl.
  - rewrite skipn_nil, firstn_nil. reflexivity.
  - rewrite IH.
    destruct (Z.leb_spec a i); destruct (Z.ltb_spec i b); simpl.
    + replace (Z.to_nat (a - i)) with O by lia.
      replace (Z.to_nat (a - (i + 1))) with O by lia.
      replace (Z.to_nat (b - i) - 0)%nat with (S (Z.to_nat (b - (i + 1)) - 0)) by lia.
      reflexivity.
    + replace (Z.to_nat (a - i)) with O by lia.
      replace (Z.to_nat (b - i)) with O by lia.
      replace (Z.to_nat (b - (i + 1))) with O by lia.
      reflexivity.
    + replace (Z.to_nat (a - i)) with (S (Z.to_nat (a - (i + 1)))) by lia.
      simpl. f_equal. lia.
    + replace (Z.to_nat (a - i)) with (S (Z.to_nat (a - (i + 1)))) by lia.
      simpl. f_equal. lia.
Qed.

Lemma pick_from_tail (a : Z) (t : str) : forall i,
  pick_from (fun j => a <=? j) i t = skipn (Z.to_nat (a - i)) t.
Proof.
  induction t as [|c r IH]; intros i; simpl.
  - rewrite skipn_nil. reflexivity.
  - rewrite IH. destruct (Z.leb_spec a i).
    + replace (Z.to_nat (a - i)) with O by lia.
      replace (Z.to_nat (a - (i + 1))) with O by lia. reflexivity.
    + replace (Z.to_nat (a - i)) with (S (Z.to_nat (a - (i + 1)))) by lia.
      reflexivity.
Qed.

(** With bounds [0 <= a <= b] a slice is the characters at the positions
    from [a] up to [b], whatever the length of the text. *)
Lemma slice_pick (t : str) (a b : Z) :
  0 <= a <= b ->
  slice t a b = pick (fun j => (a <=? j) && (j <? b)) t.
Proof.
  intros H. unfold pick. rewrite pick_from_range.
  unfold slice, clamp_index, len.
  destruct (Z.ltb_spec a 0); [lia|]. destruct (Z.ltb_spec b 0); [lia|].
  rewrite !Z.sub_0_r.
  destruct (Z_lt_le_dec a (Z.of_nat (List.length t))) as [Ha|Ha].
  - rewrite (Z.min_l a) by lia.
    destruct (Z_lt_le_dec b (Z.of_nat (List.length t))) as [Hb|Hb].
    + rewrite (Z.min_l b) by lia. f_equal. lia.
    + rewrite (Z.min_r b) by lia.
      rewrite !firstn_all2; [reflexivity | |]; rewrite length_skipn; lia.
  - rewrite (skipn_all2 t (n := Z.to_nat a)) by lia.
    rewrite (skipn_all2 t (n := Z.to_nat (Z.min a _))) by lia.
    rewrite !firstn_nil. reflexivity.
Qed.

Lemma slice_from_pick (t : str) (a : Z) :
  0 <= a -> slice_from t a = pick (fun j => a <=? j) t.
Proof.
  intros H. unfold pick. rewrite pick_from_tail.
  unfold slice_from, clamp_index, len.
  destruct (Z.ltb_spec a 0); [lia|]. rewrite Z.sub_0_r.
  destruct (Z_lt_le_dec a (Z.of_nat (List.length t))) as [Ha|Ha].
  - rewrite Z.min_l by lia. reflexivity.
  - rewrite (skipn_all2 t (n := Z.to_nat a)) by lia.
    apply skipn_all2. lia.
Qed.

(* ================================================================== *)
(** * The sort *)
(* ================================================================== *)

Lemma insert_by_start_perm (x : Span) (l : list Span) :
  Permutation (insert_by_start x l) (x :: l).
Proof.
  induction l as [|y r IH]; simpl; [apply Permutation_refl|].
  destruct (span_start x <=? span_start y); [apply Permutation_refl|].
  eapply perm_trans; [apply perm_skip, IH | apply perm_swap].
Qed.

Lemma sorted_by_start_perm (l : list Span) : Permutation (sorted_by_start l) l.
Proof.
  induction l as [|x r IH]; simpl; [constructor|].
  eapply perm_trans; [apply insert_by_start_perm | apply perm_skip, IH].
Qed.

Lemma insert_by_start_sorted (x : Span) (l : list Span) :
  StronglySorted le_start l -> StronglySorted le_start (insert_by_start x l).
Proof.
  induction 1 as [|y r Hr IH Hy]; simpl.
  - repeat constructor.
  - destruct (Z.leb_spec (span_start x) (span_start y)) as [Hxy|Hxy].
    + constructor; [constructor; assumption|].
      constructor; [exact Hxy|].
      eapply Forall_impl; [|exact Hy]. unfold le_start. intros; lia.
    + constructor; [exact IH|].
      eapply Permutation_Forall;
        [apply Permutation_sym, insert_by_start_perm|].
      constructor; [unfold le_start; lia | exact Hy].
Qed.

Lemma sorted_by_start_sorted (l : list Span) :
  StronglySorted le_start (sorted_by_start l).
Proof.
  induction l; simpl; [constructor | apply insert_by_start_sorted; assumption].
Qed.

(** Stability: spans with the same start keep their input order. *)
Lemma insert_by_start_stable (k : Z) (x : Span) (l : list Span) :
  filter (fun sp => span_start sp =? k) (insert_by_start x l)
  = filter (fun sp => span_start sp =? k) (x :: l).
Proof.
  induction l as [|y r IH]; [reflexivity|]. simpl insert_by_start.
  destruct (Z.leb_spec (span_start x) (span_start y)) as [Hxy|Hxy];
    [reflexivity|].
  simpl in *. rewrite IH.
  destruct (Z.eqb_spec (span_start x) k); destruct (Z.eqb_spec (span_start y) k);
    try reflexivity; lia.
Qed.

Lemma sorted_by_start_stable (k : Z) (l : list Span) :
  filter (fun sp => span_start sp =? k) (sorted_by_start l)
  = filter (fun sp => span_start sp =? k) l.
Proof.
  induction l as [|x r IH]; [reflexivity|]. simpl sorted_by_start.
  rewrite insert_by_start_stable. simpl. rewrite IH. reflexivity.
Qed.

Lemma chain_lower (acc : list Span) : forall last,
  chain last acc -> Forall (fun sp => last <= span_start sp) acc.
Proof.
  induction acc as [|sp r IH]; intros last H; [constructor|].
  destruct H as (H1 & H2 & H3). constructor; [exact H1|].
  eapply Forall_impl; [|apply (IH _ H3)]. simpl. intros; lia.
Qed.

Lemma chain_weaken (acc : list Span) (a b : Z) :
  a <= b -> chain b acc -> chain a acc.
Proof. destruct acc; simpl; [tauto|]. intros; intuition lia. Qed.

(** A chain is already in sorted order. *)
Lemma sorted_by_start_chain (acc : list Span) : forall last,
  chain last acc -> sorted_by_start acc = acc.
Proof.
  induction acc as [|sp r IH]; intros last H; [reflexivity|].
  destruct H as (H1 & H2 & H3). simpl. rewrite (IH _ H3).
  destruct r as [|sp2 r]; [reflexivity|]. simpl.
  destruct H3 as (H4 & _).
  destruct (Z.leb_spec (span_start sp) (span_start sp2)); [reflexivity | lia].
Qed.

(* ================================================================== *)
(** * The sweep *)
(* ================================================================== *)

Lemma skipped_false (last : Z) (sp : Span) :
  skipped last sp = false <-> last <= span_start sp < span_end sp.
Proof.
  unfold skipped. rewrite orb_false_iff, Z.geb_leb, Z.leb_gt, Z.ltb_ge. lia.
Qed.

Lemma skipped_true (last : Z) (sp : Span) :
  skipped last sp = true <-> span_start sp >= span_end sp \/ span_start sp < last.
Proof.
  unfold skipped. rewrite orb_true_iff, Z.geb_leb, Z.leb_le, Z.ltb_lt. lia.
Qed.

(** The loop appends exactly the parts of the spans it accepts. *)
Lemma sweep_fold (text : str) (l : list Span) : forall st,
  fold_left (sweep_body text) l st
  = {| result_parts :=
         result_parts st
           ++ parts_of text (last_idx st) (accepted_from (last_idx st) l);
       last_idx := final_idx (last_idx st) (accepted_from (last_idx st) l) |}.
Proof.
  induction l as [|sp r IH]; intros [parts last]; simpl.
  - rewrite app_nil_r. reflexivity.
  - unfold sweep_body. simpl. destruct (skipped last sp); rewrite IH; simpl.
    + reflexivity.
    + rewrite <- !app_assoc. reflexivity.
Qed.

Lemma accepted_from_chain (l : list Span) : forall last,
  chain last (accepted_from last l).
Proof.
  induction l as [|sp r IH]; intros last; simpl; [exact I|].
  destruct (skipped last sp) eqn:E; [apply IH|].
  apply skipped_false in E. simpl. repeat split; try lia. apply IH.
Qed.

Lemma accepted_from_subseq (l : list Span) : forall last,
  Subseq (accepted_from last l) l.
Proof.
  induction l as [|sp r IH]; intros last; simpl; [constructor|].
  destruct (skipped last sp); constructor; apply IH.
Qed.

Lemma accepted_from_app (l1 l2 : list Span) : forall last,
  accepted_from last (l1 ++ l2)
  = accepted_from last l1
      ++ accepted_from (final_idx last (accepted_from last l1)) l2.
Proof.
  induction l1 as [|sp r IH]; intros last; simpl; [reflexivity|].
  destruct (skipped last sp); simpl; rewrite IH; reflexivity.
Qed.

(** A chain is accepted as it is. *)
Lemma accepted_from_id (acc : list Span) : forall last,
  chain last acc -> accepted_from last acc = acc.
Proof.
  induction acc as [|sp r IH]; intros last H; [reflexivity|].
  destruct H as (H1 & H2 & H3). simpl.
  replace (skipped last sp) with false
    by (symmetry; apply skipped_false; lia).
  rewrite (IH _ H3). reflexivity.
Qed.

Lemma final_idx_ge (acc : list Span) : forall last,
  chain last acc -> last <= final_idx last acc.
Proof.
  induction acc as [|sp r IH]; intros last H; simpl; [lia|].
  destruct H as (H1 & H2 & H3). specialize (IH _ H3). lia.
Qed.

Lemma Subseq_In {A : Type} (a b : list A) (x : A) :
  Subseq a b -> In x a -> In x b.
Proof.
  induction 1 as [|y a b _ IH|y a b _ IH]; simpl; intros Hx;
    [exact Hx | right; auto |].
  destruct Hx as [Hx|Hx]; [left; exact Hx | right; auto].
Qed.

Lemma chain_valid (acc : list Span) : forall last,
  chain last acc -> Forall span_valid acc.
Proof.
  induction acc as [|sp r IH]; intros last H; [constructor|].
  destruct H as (H1 & H2 & H3). constructor; [exact H2 | apply (IH _ H3)].
Qed.

Lemma chain_consecutive (pre : list Span) : forall last a b post,
  chain last (pre ++ a :: b :: post) ->
  span_start a < span_start b /\ span_end a <= span_start b.
Proof.
  induction pre as [|sp r IH]; intros last a b post H; simpl in H.
  - lia.
  - destruct H as (_ & _ & H). apply (IH _ _ _ _ H).
Qed.

Lemma chain_outside (r : list Span) : forall e i,
  chain e r -> i < e -> outside_all r i = true.
Proof.
  induction r as [|sp r IH]; intros e i H Hi; [reflexivity|].
  destruct H as (H1 & H2 & H3). simpl.
  rewrite (IH (span_end sp) i H3) by lia. unfold inside.
  destruct (Z.leb_spec (span_start sp) i); [lia | reflexivity].
Qed.

(** What [redact] joins, in terms of the accepted spans. *)
Lemma redact_parts (text : str) (spans : list Span) :
  redact text spans
  = concat (parts_of text 0 (accepted spans)
              ++ [slice_from text (final_idx 0 (accepted spans))]).
Proof.
  unfold redact, sweep, join, accepted. rewrite sweep_fold. reflexivity.
Qed.

Lemma parts_pieces (text : str) (acc : list Span) : forall last,
  0 <= last -> chain last acc ->
  concat (parts_of text last acc ++ [slice_from text (final_idx last acc)])
  = concat (map render (pieces text last acc)).
Proof.
  induction acc as [|sp r IH]; intros last H0 H; simpl.
  - rewrite slice_from_pick by exact H0. reflexivity.
  - destruct H as (H1 & H2 & H3).
    rewrite slice_pick by lia. rewrite (IH (span_end sp)) by (lia || exact H3).
    reflexivity.
Qed.

Lemma copied_pieces (text : str) (acc : list Span) : forall last,
  0 <= last -> chain last acc ->
  concat (map copied (pieces text last acc))
  = pick (fun i => (last <=? i) && outside_all acc i) text.
Proof.
  induction acc as [|sp r IH]; intros last H0 H; simpl.
  - rewrite app_nil_r. apply pick_from_ext. intros j _.
    rewrite andb_true_r. reflexivity.
  - destruct H as (H1 & H2 & H3).
    rewrite (IH (span_end sp)) by (lia || exact H3).
    unfold pick.
    rewrite (pick_from_app _ _ (span_start sp)).
    + apply pick_from_ext. intros j _. unfold inside.
      destruct (Z.leb_spec last j); destruct (Z.ltb_spec j (span_start sp));
        destruct (Z.leb_spec (span_end sp) j);
        destruct (Z.leb_spec (span_start sp) j);
        destruct (Z.ltb_spec j (span_end sp)); simpl; try lia; try reflexivity.
      symmetry. apply (chain_outside r (span_end sp)); [exact H3 | lia].
    + intros j Hj. apply andb_true_iff in Hj. lia.
    + intros j Hj. apply andb_true_iff in Hj. lia.
Qed.

(** One step of the machine is one run of the loop body. *)
Lemma loop_step_body (text : str) (sp : Span) (r : list Span) (st : sweep_state) :
  loop_step text (sp :: r, st) (r, sweep_body text st sp).
Proof.
  unfold sweep_body. destruct (skipped (last_idx st) sp) eqn:E;
    [apply loop_continue | apply loop_replace]; exact E.
Qed.

Lemma loop_step_inv (text : str) (c1 c2 : list Span * sweep_state) :
  loop_step text c1 c2 ->
  exists sp r, fst c1 = sp :: r /\ c2 = (r, sweep_body text (snd c1) sp).
Proof.
  intros H. inversion H as [sp rest st E|sp rest st E]; subst;
    exists sp, rest; simpl; unfold sweep_body; rewrite E; auto.
Qed.

Lemma loop_steps_fold (text : str) (l : list Span) : forall st,
  loop_steps text (List.length l) (l, st) ([], fold_left (sweep_body text) l st).
Proof.
  induction l as [|sp r IH]; intros st; simpl; [constructor|].
  eapply loop_next; [apply loop_step_body | apply IH].
Qed.

Lemma loop_steps_final (text : str) (n : nat) (c1 c2 : list Span * sweep_state) :
  loop_steps text n c1 c2 -> fst c2 = [] ->
  n = List.length (fst c1) /\ snd c2 = fold_left (sweep_body text) (fst c1) (snd c1).
Proof.
  induction 1 as [c|n c1 c2 c3 Hs _ IH]; intros Hend.
  - rewrite Hend. simpl. auto.
  - destruct (IH Hend) as [-> ->].
    destruct (loop_step_inv _ _ _ Hs) as (sp & r & E1 & ->).
    rewrite E1. simpl. auto.
Qed.

(* ================================================================== *)
(** * Properties of the redaction pass *)
(* ================================================================== *)

(** C1 - content preservation.  The output is, piece by piece, the
    characters standing before the first accepted span, its bracketed
    label, the characters between it and the next accepted span, and so on
    up to the characters after the last one; and the copied pieces put
    together are exactly the characters of the input whose position lies
    outside every accepted span, each once and in input order. *)
Theorem redact_preserves_content (text : str) (spans : list Span) :
  redact text spans = concat (map render (pieces text 0 (accepted spans))) /\
  concat (map copied (pieces text 0 (accepted spans)))
  = pick (outside_all (accepted spans)) text.
Proof.
  assert (Hc : chain 0 (accepted spans)) by apply accepted_from_chain.
  split.
  - rewrite redact_parts. apply parts_pieces; [lia | exact Hc].
  - rewrite copied_pieces by (lia || exact Hc).
    apply pick_from_ext. intros j Hj.
    destruct (Z.leb_spec 0 j); [reflexivity | lia].
Qed.

(** C2 - the accepted spans.  They are input spans taken unchanged, in
    sorted order; each has [start < end]; consecutive ones have strictly
    increasing starts and do not overlap; a span with [start >= end] is
    never among them; a span that starts before the end of the last span
    accepted before it leaves the loop variables untouched, and the
    accepted list is what it would be without that span; and the output is
    the output for the accepted spans alone. *)
Theorem accepted_spans_invariant (text : str) (spans : list Span) :
  Subseq (accepted spans) (sorted_by_start spans) /\
  (forall sp, In sp (accepted spans) ->
     In sp spans /\ span_start sp < span_end sp) /\
  (forall pre a b post, accepted spans = pre ++ a :: b :: post ->
     span_start a < span_start b /\ span_end a <= span_start b) /\
  (forall sp, In sp spans -> span_start sp >= span_end sp ->
     ~ In sp (accepted spans)) /\
  (forall pre sp post, sorted_by_start spans = pre ++ sp :: post ->
     span_start sp < last_idx (sweep text pre) ->
     sweep_body text (sweep text pre) sp = sweep text pre /\
     accepted spans = accepted_from 0 (pre ++ post)) /\
  redact text spans = redact text (accepted spans).
Proof.
  assert (Hc : chain 0 (accepted spans)) by apply accepted_from_chain.
  assert (Hv : Forall span_valid (accepted spans)) by apply (chain_valid _ _ Hc).
  assert (Hs : Subseq (accepted spans) (sorted_by_start spans))
    by apply accepted_from_subseq.
  rewrite Forall_forall in Hv.
  split; [exact Hs|]. split; [|split; [|split; [|split]]].
  - intros sp Hin. split; [|apply Hv; exact Hin].
    apply (Permutation_in _ (sorted_by_start_perm spans)).
    apply (Subseq_In _ _ _ Hs). exact Hin.
  - intros pre a b post E. rewrite E in Hc.
    apply (chain_consecutive _ _ _ _ _ Hc).
  - intros sp _ Hdeg Hin. apply Hv in Hin. unfold span_valid in Hin. lia.
  - intros pre sp post E Hlt.
    assert (Hsk : skipped (last_idx (sweep text pre)) sp = true)
      by (apply skipped_true; right; exact Hlt).
    split.
    + unfold sweep_body. rewrite Hsk. reflexivity.
    + unfold accepted. rewrite E. rewrite !accepted_from_app. f_equal.
      unfold sweep in Hsk. rewrite sweep_fold in Hsk. simpl in Hsk.
      simpl. rewrite Hsk. reflexivity.
  - rewrite !redact_parts.
    assert (Hid : accepted (accepted spans) = accepted spans).
    { unfold accepted at 1. rewrite (sorted_by_start_chain _ 0 Hc).
      apply accepted_from_id. exact Hc. }
    rewrite Hid. reflexivity.
Qed.

(** C2, at the spans (5,9,A) (0,6,B) (7,7,C) (6,8,D) (2,3,E): sorted they
    are B E A D C; B is accepted, E and A start before B ends and are
    discarded, D is accepted, C is empty. *)
Lemma accepted_spans_invariant_witness :
  let spans := [(5, 9, lit "A"); (0, 6, lit "B"); (7, 7, lit "C");
                (6, 8, lit "D"); (2, 3, lit "E")] in
  accepted spans = [(0, 6, lit "B"); (6, 8, lit "D")] /\
  ~ In (7, 7, lit "C") (accepted spans) /\
  sweep_body (lit "0123456789") (sweep (lit "0123456789") [(0, 6, lit "B")])
    (2, 3, lit "E")
  = sweep (lit "0123456789") [(0, 6, lit "B")] /\
  redact (lit "0123456789") spans = lit "[B][D]89".
Proof.
  intros spans.
  pose proof (accepted_spans_invariant (lit "0123456789") spans)
    as (_ & _ & _ & Hdeg & Hdrop & _).
  split; [reflexivity|]. split; [|split].
  - apply Hdeg; [simpl; auto | unfold span_start, span_end; simpl; lia].
  - apply (Hdrop [(0, 6, lit "B")] (2, 3, lit "E")
             [(5, 9, lit "A"); (6, 8, lit "D"); (7, 7, lit "C")]);
      [reflexivity | vm_compute; reflexivity].
  - reflexivity.
Defined.

(** C3, as stated: with A = (0,5,PERSON) and B = (3,8,ORG) on
    "Alice Bobson here", A alone is accepted and the output is
    "[PERSON]son here".  The output part fails: the text after A is copied
    from position 5 on. *)
Lemma overlap_scenario_counterexample :
  ~ (accepted [(0, 5, lit "PERSON"); (3, 8, lit "ORG")]
       = [(0, 5, lit "PERSON")] /\
     redact (lit "Alice Bobson here") [(0, 5, lit "PERSON"); (3, 8, lit "ORG")]
       = lit "[PERSON]son here").
Proof. intros [_ H]. vm_compute in H. discriminate H. Qed.

(** C3, amended - overlap resolution on "Alice Bobson here" with
    A = (0,5,PERSON) and B = (3,8,ORG): A is kept, B is discarded as a
    whole, and the output is "[PERSON] Bobson here": the label of A
    followed by everything from the end of A on. *)
Theorem overlap_scenario :
  accepted [(0, 5, lit "PERSON"); (3, 8, lit "ORG")] = [(0, 5, lit "PERSON")] /\
  sweep_body (lit "Alice Bobson here")
    (sweep (lit "Alice Bobson here") [(0, 5, lit "PERSON")]) (3, 8, lit "ORG")
  = sweep (lit "Alice Bobson here") [(0, 5, lit "PERSON")] /\
  redact (lit "Alice Bobson here") [(0, 5, lit "PERSON"); (3, 8, lit "ORG")]
  = lit "[PERSON] Bobson here".
Proof. repeat split. Qed.

(** C7 - totality of the redaction pass.  From the sorted spans and the
    initial variables the loop reaches the end of the list after one
    iteration per span, in one way only; [last_idx] is then not negative;
    and the value returned is the tail slice joined to the parts. *)
Theorem redact_total (text : str) (spans : list Span) :
  exists st : sweep_state,
    loop_steps text (List.length spans)
      (sorted_by_start spans, sweep_init) ([], st) /\
    (forall n st',
       loop_steps text n (sorted_by_start spans, sweep_init) ([], st') ->
       n = List.length spans /\ st' = st) /\
    0 <= last_idx st /\
    redact text spans = join (result_parts st ++ [slice_from text (last_idx st)]).
Proof.
  exists (sweep text (sorted_by_start spans)).
  assert (Hlen : List.length (sorted_by_start spans) = List.length spans)
    by apply Permutation_length, sorted_by_start_perm.
  split; [|split; [|split]].
  - rewrite <- Hlen. apply loop_steps_fold.
  - intros n st' H. apply loop_steps_final in H; [|reflexivity].
    simpl in H. rewrite Hlen in H. exact H.
  - unfold sweep. rewrite sweep_fold. simpl.
    apply final_idx_ge, accepted_from_chain.
  - reflexivity.
Qed.

(** C7, at two overlapping spans given out of order, one of them with a
    negative start and one reaching past the end of the text. *)
Lemma redact_total_witness :
  exists st : sweep_state,
    loop_steps (lit "abc") 3
      ([(-4, 1, lit "X"); (1, 2, lit "Z"); (2, 9, lit "Y")], sweep_init) ([], st) /\
    redact (lit "abc") [(2, 9, lit "Y"); (-4, 1, lit "X"); (1, 2, lit "Z")]
    = lit "a[Z][Y]".
Proof.
  destruct (redact_total (lit "abc")
              [(2, 9, lit "Y"); (-4, 1, lit "X"); (1, 2, lit "Z")])
    as (st & Hrun & _ & _ & _).
  exists st. split; [exact Hrun | reflexivity].
Defined.

(** C9 - with no span the text comes back unchanged. *)
Theorem redact_no_spans (text : str) : redact text [] = text.
Proof.
  unfold redact, sweep, join, slice_from, clamp_index. simpl.
  rewrite Z.min_l by (unfold len; lia). apply app_nil_r.
Qed.

(* ================================================================== *)
(** * The fallback scan *)
(* ================================================================== *)

Ltac break_branches :=
  repeat match goal with
         | |- context [if ?b then _ else _] => destruct b eqn:?
         | |- context [match ?x with _ => _ end] => destruct x eqn:?
         end.

(** A tag whose prefix is I, E or L is not ["O"], and its prefix is not
    B, S or U. *)
Lemma continuation_prefix (tag : str) :
  in_tuple (tag_prefix tag) [lit "I"; lit "E"; lit "L"] = true ->
  str_eqb tag (lit "O") = false /\
  in_tuple (tag_prefix tag) [lit "B"; lit "S"; lit "U"] = false.
Proof.
  intros H. split.
  - destruct (str_eqb tag (lit "O")) eqn:E; [|reflexivity].
    apply str_eqb_eq in E. subst tag. discriminate H.
  - unfold in_tuple in *. simpl in H.
    repeat (apply orb_true_iff in H; destruct H as [H|H]);
      try discriminate H; apply str_eqb_eq in H; rewrite H; reflexivity.
Qed.

(** Spans once emitted stay in [spans_local]. *)
Lemma token_body_keeps (st : scan_state) (token : Token) (sp : Span) :
  In sp (spans_local st) -> In sp (spans_local (token_body st token)).
Proof.
  intros H. unfold token_body, with_open, open_span, cleared.
  break_branches; simpl in *; rewrite ?in_app_iff; auto.
Qed.

Lemma sentence_end_keeps (st : scan_state) (sp : Span) :
  In sp (spans_local st) -> In sp (spans_local (sentence_end st)).
Proof.
  intros H. unfold sentence_end, cleared.
  break_branches; simpl; rewrite ?in_app_iff; auto.
Qed.

Lemma tokens_keep (toks : list Token) (sp : Span) : forall st,
  In sp (spans_local st) -> In sp (spans_local (fold_left token_body toks st)).
Proof.
  induction toks as [|t r IH]; intros st H; simpl; [exact H|].
  apply IH, token_body_keeps, H.
Qed.

Lemma sentences_keep (sents : list Sentence) (sp : Span) : forall st,
  In sp (spans_local st) ->
  In sp (spans_local (fold_left sentence_body sents st)).
Proof.
  induction sents as [|s r IH]; intros st H; simpl; [exact H|].
  apply IH. unfold sentence_body. apply sentence_end_keeps, tokens_keep, H.
Qed.

(** The scan of a document around one of its sentences. *)
Lemma scan_sentences_split (before after : list Sentence) (toks : list Token) :
  scan_sentences (before ++ mk_sentence (Some toks) :: after)
  = spans_local
      (fold_left sentence_body after
         (sentence_end
            (fold_left token_body toks
               (fold_left sentence_body before scan_init)))).
Proof. unfold scan_sentences. rewrite fold_left_app. reflexivity. Qed.

(** The step a malformed continuation takes. *)
Lemma token_body_standalone (st : scan_state) (token : Token) (tag : str) :
  ner token = Some tag ->
  in_tuple (tag_prefix tag) [lit "I"; lit "E"; lit "L"] = true ->
  cur_start st = None \/ type_is (cur_type st) (tag_type tag) = false ->
  token_body st token
  = cleared (spans_local st
               ++ [(start_char token, end_char token, tag_type tag)]).
Proof.
  intros Hner Hpre Hst.
  destruct (continuation_prefix tag Hpre) as [HO HB].
  unfold token_body. rewrite Hner, HO.
  fold (tag_prefix tag). fold (tag_type tag). rewrite HB, Hpre.
  destruct Hst as [Hs|Ht].
  - rewrite Hs. destruct (type_is (cur_type st) (tag_type tag)); reflexivity.
  - rewrite Ht. reflexivity.
Qed.

(** C5 - malformed continuation.  A token whose tag has prefix I, E or L,
    met while no span is open or while the open span has another type,
    makes the scan append the one-token span (token start, token end,
    token type) and clear the open-span variables; that span is in the list
    the extractor returns, wherever the token stands in the document; and
    the tags O, I-PERSON with the second token at (4,9) give exactly
    (4,9,PERSON). *)
Theorem malformed_continuation_standalone :
  (forall (st : scan_state) (token : Token) (tag : str),
     ner token = Some tag ->
     in_tuple (tag_prefix tag) [lit "I"; lit "E"; lit "L"] = true ->
     cur_start st = None \/ type_is (cur_type st) (tag_type tag) = false ->
     token_body st token
     = cleared (spans_local st
                  ++ [(start_char token, end_char token, tag_type tag)])) /\
  (forall (before : list Sentence) (pre : list Token) (token : Token)
          (post : list Token) (after : list Sentence) (tag : str),
     let st := fold_left token_body pre (fold_left sentence_body before scan_init) in
     ner token = Some tag ->
     in_tuple (tag_prefix tag) [lit "I"; lit "E"; lit "L"] = true ->
     cur_start st = None \/ type_is (cur_type st) (tag_type tag) = false ->
     In (start_char token, end_char token, tag_type tag)
        (scan_sentences
           (before ++ mk_sentence (Some (pre ++ token :: post)) :: after))) /\
  (forall a b : Z,
     scan_sentences
       [mk_sentence (Some [mk_token (Some (lit "O")) a b;
                           mk_token (Some (lit "I-PERSON")) 4 9])]
     = [(4, 9, lit "PERSON")]).
Proof.
  split; [exact token_body_standalone|]. split; [|reflexivity].
  intros before pre token post after tag st Hner Hpre Hst.
  rewrite scan_sentences_split.
  apply sentences_keep, sentence_end_keeps. rewrite fold_left_app. simpl.
  apply tokens_keep. fold st.
  rewrite (token_body_standalone st token tag Hner Hpre Hst). simpl.
  apply in_or_app. right. left. reflexivity.
Qed.

(** C5, at a PERSON span left open by a B tag and continued by I-ORG,
    and at an E tag opening a sentence. *)
Lemma malformed_continuation_standalone_witness :
  token_body (mk_scan [] (Some 0) (Some 6) (Some (lit "PERSON")))
    (mk_token (Some (lit "I-ORG")) 7 12)
  = cleared [(7, 12, lit "ORG")] /\
  In (3, 8, lit "LOC")
     (scan_sentences
        [mk_sentence (Some [mk_token (Some (lit "O")) 0 2;
                            mk_token (Some (lit "E-LOC")) 3 8;
                            mk_token (Some (lit "B-ORG")) 9 11])]).
Proof.
  destruct malformed_continuation_standalone as (Hstep & Hin & _). split.
  - apply (Hstep (mk_scan [] (Some 0) (Some 6) (Some (lit "PERSON")))
             (mk_token (Some (lit "I-ORG")) 7 12) (lit "I-ORG"));
      [reflexivity | reflexivity | right; reflexivity].
  - apply (Hin [] [mk_token (Some (lit "O")) 0 2]
             (mk_token (Some (lit "E-LOC")) 3 8)
             [mk_token (Some (lit "B-ORG")) 9 11] [] (lit "E-LOC"));
      [reflexivity | reflexivity | left; reflexivity].
Defined.

(** C10 - a tag that is not ["O"] and whose prefix is none of B, S, U, I,
    E, L leaves every scan variable as it was, and the extractor returns
    what it returns for the document without that token. *)
Theorem unknown_prefix_ignored (token : Token) (tag : str) :
  ner token = Some tag ->
  tag <> lit "O" ->
  in_tuple (tag_prefix tag)
    [lit "B"; lit "S"; lit "U"; lit "I"; lit "E"; lit "L"] = false ->
  (forall st : scan_state, token_body st token = st) /\
  (forall (before : list Sentence) (pre post : list Token) (after : list Sentence),
     scan_sentences (before ++ mk_sentence (Some (pre ++ token :: post)) :: after)
     = scan_sentences (before ++ mk_sentence (Some (pre ++ post)) :: after)).
Proof.
  intros Hner HO Hpre.
  assert (Hstep : forall st, token_body st token = st).
  { intros st. unfold token_body. rewrite Hner.
    destruct (str_eqb tag (lit "O")) eqn:E;
      [apply str_eqb_eq in E; contradiction|].
    fold (tag_prefix tag). unfold in_tuple in *. simpl in *.
    repeat (apply orb_false_iff in Hpre; destruct Hpre as [? Hpre]).
    repeat match goal with H : str_eqb _ _ = false |- _ => rewrite H; clear H end.
    reflexivity. }
  split; [exact Hstep|].
  intros before pre post after. rewrite !scan_sentences_split.
  rewrite !fold_left_app. simpl. rewrite Hstep. reflexivity.
Qed.

(** C10, at the tag X-PERSON between a B-PERSON and an I-PERSON token:
    the open span runs on over it. *)
Lemma unknown_prefix_ignored_witness :
  token_body (mk_scan [] (Some 0) (Some 6) (Some (lit "PERSON")))
    (mk_token (Some (lit "X-PERSON")) 7 9)
  = mk_scan [] (Some 0) (Some 6) (Some (lit "PERSON")) /\
  scan_sentences
    [mk_sentence (Some [mk_token (Some (lit "B-PERSON")) 0 6;
                        mk_token (Some (lit "X-PERSON")) 7 9;
                        mk_token (Some (lit "I-PERSON")) 10 15])]
  = [(0, 15, lit "PERSON")].
Proof.
  destruct (unknown_prefix_ignored (mk_token (Some (lit "X-PERSON")) 7 9)
              (lit "X-PERSON")) as [Hstep Hdoc];
    [reflexivity | discriminate | reflexivity |].
  split; [apply Hstep|].
  exact (eq_trans (Hdoc [] [mk_token (Some (lit "B-PERSON")) 0 6]
                        [mk_token (Some (lit "I-PERSON")) 10 15] [])
                  eq_refl).
Defined.

(* ================================================================== *)
(** * Non-empty spans *)
(* ================================================================== *)

Lemma token_body_ok (st : scan_state) (token : Token) (rest : list Token) :
  tokens_in_order (token :: rest) ->
  scan_ok st (token :: rest) -> scan_ok (token_body st token) rest.
Proof.
  intros [Hne Hord] [Hsp Hcur].
  inversion Hne as [|? ? Htok Hne']; subst.
  inversion Hord as [|? ? Hord' Hle]; subst.
  destruct st as [sp cs ce ct]. simpl in *.
  unfold token_body, with_open, open_span, cleared, scan_ok.
  destruct cs as [cs|], ce as [ce|], ct as [ct|]; try contradiction; simpl;
    break_branches; simpl in *;
    repeat match goal with
           | H : _ /\ _ |- _ => destruct H
           | H : Forall _ (_ :: _) |- _ => inversion H; subst; clear H
           | H : Some _ = Some _ |- _ => inversion H; subst; clear H
           | H : Some _ = None |- _ => discriminate H
           | H : None = Some _ |- _ => discriminate H
           end;
    repeat split; rewrite ?Forall_app; repeat split;
    try assumption; try lia;
    try (repeat constructor; unfold span_valid, span_start, span_end; simpl; lia).
Qed.

Lemma tokens_in_order_tail (token : Token) (rest : list Token) :
  tokens_in_order (token :: rest) -> tokens_in_order rest.
Proof.
  intros [Hne Hord]. inversion Hne; inversion Hord; subst. split; assumption.
Qed.

Lemma tokens_ok (toks : list Token) : forall st,
  tokens_in_order toks -> scan_ok st toks ->
  scan_ok (fold_left token_body toks st) [].
Proof.
  induction toks as [|t r IH]; intros st Hord Hok; simpl; [exact Hok|].
  apply IH; [apply (tokens_in_order_tail _ _ Hord)|].
  apply token_body_ok; assumption.
Qed.

Lemma scan_closed_ok (st : scan_state) (toks : list Token) :
  scan_closed st -> scan_ok st toks.
Proof.
  intros (H & H1 & H2 & H3). split; [exact H|].
  rewrite H1, H2, H3. exact I.
Qed.

Lemma sentence_end_closed (st : scan_state) :
  scan_ok st [] -> scan_closed (sentence_end st).
Proof.
  destruct st as [sp cs ce ct]. unfold scan_ok, sentence_end, open_span, scan_closed.
  simpl. intros [Hsp Hcur].
  destruct cs, ce, ct; try contradiction; simpl; repeat split; try assumption.
  rewrite Forall_app. split; [assumption|].
  repeat constructor. unfold span_valid, span_start, span_end. simpl.
  destruct Hcur. assumption.
Qed.

Lemma sentences_closed (sents : list Sentence) : forall st,
  (forall sent, In sent sents -> tokens_in_order (sentence_tokens sent)) ->
  scan_closed st -> scan_closed (fold_left sentence_body sents st).
Proof.
  induction sents as [|s r IH]; intros st Hord Hst; simpl; [exact Hst|].
  apply IH; [intros; apply Hord; right; assumption|].
  unfold sentence_body. apply sentence_end_closed.
  apply tokens_ok; [apply (Hord s); left; reflexivity|].
  apply scan_closed_ok, Hst.
Qed.

(* ================================================================== *)
(** * The primary path *)
(* ================================================================== *)

Section Primary.

Context {PyObj : Type}.
Variable py_int : PyObj -> option Z.
Variable py_str : PyObj -> option str.

Lemma ent_body_contribution (spans : list Span) (ent : Ent PyObj) :
  ent_body py_int py_str spans ent = spans ++ contribution py_int py_str ent.
Proof.
  unfold ent_body, convert_ent, contribution, read_as.
  destruct (ent_start_char ent) as [a|]; [|symmetry; apply app_nil_r].
  destruct (py_int a) as [s|]; [|symmetry; apply app_nil_r].
  destruct (ent_end_char ent) as [b|]; [|symmetry; apply app_nil_r].
  destruct (py_int b) as [e|]; [|symmetry; apply app_nil_r].
  destruct (ent_type ent) as [c|]; [|symmetry; apply app_nil_r].
  destruct (py_str c) as [l|]; [|symmetry; apply app_nil_r].
  unfold span_start, span_end. simpl.
  destruct (s <? e); [reflexivity | symmetry; apply app_nil_r].
Qed.

Lemma ents_fold (l : list (Ent PyObj)) : forall spans,
  fold_left (ent_body py_int py_str) l spans
  = spans ++ flat_map (contribution py_int py_str) l.
Proof.
  induction l as [|ent r IH]; intros spans; simpl.
  - symmetry. apply app_nil_r.
  - rewrite IH, ent_body_contribution, app_assoc. reflexivity.
Qed.

Lemma spans_from_doc_ents_flat (l : list (Ent PyObj)) (sents : option (list Sentence)) :
  spans_from_doc_ents py_int py_str (mk_doc (Some l) sents)
  = flat_map (contribution py_int py_str) l.
Proof.
  unfold spans_from_doc_ents. simpl. destruct l as [|ent r]; [reflexivity|].
  apply ents_fold.
Qed.

Lemma contribution_valid (ent : Ent PyObj) :
  Forall span_valid (contribution py_int py_str ent).
Proof.
  unfold contribution.
  destruct (read_as py_int (ent_start_char ent)) as [s|]; [|constructor].
  destruct (read_as py_int (ent_end_char ent)) as [e|]; [|constructor].
  destruct (read_as py_str (ent_type ent)) as [l|]; [|constructor].
  destruct (Z.ltb_spec s e); repeat constructor. exact H.
Qed.

Lemma spans_from_doc_ents_valid (doc : Document PyObj) :
  Forall span_valid (spans_from_doc_ents py_int py_str doc).
Proof.
  destruct doc as [[l|] sents]; [|constructor].
  rewrite spans_from_doc_ents_flat.
  induction l as [|ent r IH]; simpl; [constructor|].
  rewrite Forall_app. split; [apply contribution_valid | exact IH].
Qed.

End Primary.

(* ================================================================== *)
(** * Properties of the extractors *)
(* ================================================================== *)

(** C4 - fallback reconstruction.  With no entity objects and one sentence
    of three tokens tagged B-PERSON at (0,6), I-PERSON at (7,12) and O at
    (13,20), the fallback extractor returns the single span (0,12,PERSON),
    and "Barack Obama visited." becomes "[PERSON] visited.". *)
Theorem fallback_scenario (PyObj : Type) (py_int : PyObj -> option Z)
    (py_str : PyObj -> option str) (no_ents : option (list (Ent PyObj))) :
  no_ents = None \/ no_ents = Some [] ->
  let doc :=
    mk_doc no_ents
      (Some [mk_sentence (Some [mk_token (Some (lit "B-PERSON")) 0 6;
                                mk_token (Some (lit "I-PERSON")) 7 12;
                                mk_token (Some (lit "O")) 13 20])]) in
  spans_from_tokens doc = [(0, 12, lit "PERSON")] /\
  entity_spans py_int py_str doc = [(0, 12, lit "PERSON")] /\
  redact (lit "Barack Obama visited.") [(0, 12, lit "PERSON")]
  = lit "[PERSON] visited." /\
  anonymize_with_stanza py_int py_str (lit "Barack Obama visited.") doc
  = lit "[PERSON] visited.".
Proof.
  intros [-> | ->]; repeat split.
Qed.

Lemma fallback_scenario_witness :
  anonymize_with_stanza sample_int sample_str (lit "Barack Obama visited.")
    (mk_doc None
       (Some [mk_sentence (Some [mk_token (Some (lit "B-PERSON")) 0 6;
                                 mk_token (Some (lit "I-PERSON")) 7 12;
                                 mk_token (Some (lit "O")) 13 20])]))
  = lit "[PERSON] visited.".
Proof.
  apply (fallback_scenario sample_obj sample_int sample_str None).
  left. reflexivity.
Defined.

(** C6, as stated: every span handed on by the extractor has
    [start < end], whatever the token offsets.  A token of width zero
    tagged S-GPE at (4,4) comes out of the fallback path as the span
    (4,4,GPE). *)
Lemma emitted_spans_counterexample :
  ~ (forall sp : Span,
       In sp (entity_spans sample_int sample_str
                (mk_doc None
                   (Some [mk_sentence
                            (Some [mk_token (Some (lit "S-GPE")) 4 4])]))) ->
       span_start sp < span_end sp).
Proof.
  intros H. specialize (H (4, 4, lit "GPE") (or_introl eq_refl)).
  unfold span_start, span_end in H. simpl in H. lia.
Qed.

(** C6, amended - every span of the primary path has [start < end]; so
    has every span of the fallback path, and so every span the extractor
    hands on, when in each sentence no token is empty and the token starts
    do not decrease. *)
Theorem emitted_spans_nonempty (PyObj : Type) (py_int : PyObj -> option Z)
    (py_str : PyObj -> option str) (doc : Document PyObj) :
  Forall span_valid (spans_from_doc_ents py_int py_str doc) /\
  ((forall sent, In sent (doc_sentences doc) ->
      tokens_in_order (sentence_tokens sent)) ->
   Forall span_valid (spans_from_tokens doc) /\
   Forall span_valid (entity_spans py_int py_str doc)).
Proof.
  split; [apply spans_from_doc_ents_valid|]. intros Hord.
  assert (Hfb : Forall span_valid (spans_from_tokens doc)).
  { unfold spans_from_tokens, scan_sentences. fold (doc_sentences doc).
    apply (sentences_closed (doc_sentences doc) scan_init Hord).
    repeat split. constructor. }
  split; [exact Hfb|]. unfold entity_spans.
  pose proof (spans_from_doc_ents_valid py_int py_str doc) as Hp.
  destruct (spans_from_doc_ents py_int py_str doc); assumption.
Qed.

(** C6, at a document without entity objects whose sentence has a
    two-token PERSON entity and a one-token GPE entity. *)
Lemma emitted_spans_nonempty_witness :
  Forall span_valid
    (entity_spans sample_int sample_str
       (mk_doc None
          (Some [mk_sentence (Some [mk_token (Some (lit "B-PERSON")) 0 6;
                                    mk_token (Some (lit "E-PERSON")) 7 12;
                                    mk_token None 13 15;
                                    mk_token (Some (lit "U-GPE")) 16 21])]))).
Proof.
  apply (emitted_spans_nonempty sample_obj sample_int sample_str).
  intros sent [<- | []]. split; simpl.
  - repeat constructor; simpl; lia.
  - repeat constructor; simpl; lia.
Defined.

(** C8 - the primary path record by record.  The result is the list, in
    order, of the spans of the records whose three fields convert and
    whose start is below their end; a record with a missing or
    unconvertible field, or with [start >= end], contributes nothing, and
    the result is what it would be without that record. *)
Theorem bad_entity_skipped (PyObj : Type) (py_int : PyObj -> option Z)
    (py_str : PyObj -> option str) (sents : option (list Sentence)) :
  (forall l : list (Ent PyObj),
     spans_from_doc_ents py_int py_str (mk_doc (Some l) sents)
     = flat_map (contribution py_int py_str) l) /\
  (forall (pre : list (Ent PyObj)) (ent : Ent PyObj) (post : list (Ent PyObj)),
     read_as py_int (ent_start_char ent) = None \/
     read_as py_int (ent_end_char ent) = None \/
     read_as py_str (ent_type ent) = None \/
     (exists s e, read_as py_int (ent_start_char ent) = Some s /\
                  read_as py_int (ent_end_char ent) = Some e /\ s >= e) ->
     (forall spans, ent_body py_int py_str spans ent = spans) /\
     spans_from_doc_ents py_int py_str (mk_doc (Some (pre ++ ent :: post)) sents)
     = spans_from_doc_ents py_int py_str (mk_doc (Some (pre ++ post)) sents)).
Proof.
  split; [intros l; apply spans_from_doc_ents_flat|].
  intros pre ent post Hbad.
  assert (Hc : contribution py_int py_str ent = []).
  { unfold contribution.
    destruct Hbad as [H | [H | [H | (s & e & Hs & He & Hge)]]].
    - rewrite H. reflexivity.
    - rewrite H. destruct (read_as py_int (ent_start_char ent)); reflexivity.
    - rewrite H. destruct (read_as py_int (ent_start_char ent));
        [destruct (read_as py_int (ent_end_char ent))|]; reflexivity.
    - rewrite Hs, He. destruct (read_as py_str (ent_type ent)); [|reflexivity].
      destruct (Z.ltb_spec s e); [lia | reflexivity]. }
  split.
  - intros spans. rewrite ent_body_contribution, Hc. apply app_nil_r.
  - rewrite !spans_from_doc_ents_flat, !flat_map_app. simpl. rewrite Hc.
    reflexivity.
Qed.

(** C8, at four records: a good one, one whose start is a string, one
    without a type, one with start 9 and end 9, and a last good one. *)
Lemma bad_entity_skipped_witness :
  spans_from_doc_ents sample_int sample_str
    (mk_doc
       (Some [mk_ent (Some (ObjInt 0)) (Some (ObjInt 5)) (Some (ObjStr (lit "ORG")));
              mk_ent (Some (ObjStr (lit "x"))) (Some (ObjInt 7)) (Some (ObjStr (lit "GPE")));
              mk_ent (Some (ObjInt 6)) (Some (ObjInt 8)) None;
              mk_ent (Some (ObjInt 9)) (Some (ObjInt 9)) (Some (ObjStr (lit "LOC")));
              mk_ent (Some (ObjInt 10)) (Some (ObjInt 12)) (Some (ObjStr (lit "PERSON")))])
       None)
  = [(0, 5, lit "ORG"); (10, 12, lit "PERSON")].
Proof.
  destruct (bad_entity_skipped sample_obj sample_int sample_str None)
    as [_ Hskip].
  destruct (Hskip
              [mk_ent (Some (ObjInt 0)) (Some (ObjInt 5)) (Some (ObjStr (lit "ORG")))]
              (mk_ent (Some (ObjStr (lit "x"))) (Some (ObjInt 7)) (Some (ObjStr (lit "GPE"))))
              [mk_ent (Some (ObjInt 6)) (Some (ObjInt 8)) None;
               mk_ent (Some (ObjInt 9)) (Some (ObjInt 9)) (Some (ObjStr (lit "LOC")));
               mk_ent (Some (ObjInt 10)) (Some (ObjInt 12)) (Some (ObjStr (lit "PERSON")))])
    as [_ H1]; [left; reflexivity|].
  exact (eq_trans H1 eq_refl).
Defined.

(* ================================================================== *)
(** * Further properties of the redaction pass *)
(* ================================================================== *)

Lemma firstn_min_length {A : Type} (l : list A) (n : nat) :
  firstn (Nat.min n (List.length l)) l = firstn n l.
Proof.
  destruct (Nat.le_gt_cases n (List.length l)) as [H|H].
  - rewrite Nat.min_l by exact H. reflexivity.
  - rewrite Nat.min_r by lia. rewrite firstn_all, firstn_all2 by lia.
    reflexivity.
Qed.

Lemma skipn_min_length {A : Type} (l : list A) (n : nat) :
  skipn (Nat.min n (List.length l)) l = skipn n l.
Proof.
  destruct (Nat.le_gt_cases n (List.length l)) as [H|H].
  - rewrite Nat.min_l by exact H. reflexivity.
  - rewrite Nat.min_r by lia. rewrite skipn_all, skipn_all2 by lia.
    reflexivity.
Qed.

(** X1 - one span.  A span with [0 <= start < end] turns the text into
    its first [start] characters, the bracketed label, and what follows
    position [end]; a span lying past the end of the text therefore puts
    its label after the whole text. *)
Theorem redact_single (text : str) (s e : Z) (label : str) :
  0 <= s < e ->
  redact text [(s, e, label)]
  = firstn (Z.to_nat s) text ++ lit "[" ++ label ++ lit "]"
      ++ skipn (Z.to_nat e) text.
Proof.
  intros H. unfold redact, sweep, join. simpl. unfold sweep_body, skipped.
  unfold span_start, span_end, span_label. simpl.
  destruct (Z.geb_spec s e); [lia|]. destruct (Z.ltb_spec s 0); [lia|].
  simpl. rewrite app_nil_r. unfold bracket, slice, slice_from, clamp_index, len.
  simpl. destruct (Z.ltb_spec s 0); [lia|]. destruct (Z.ltb_spec e 0); [lia|].
  rewrite (Z.min_l 0) by lia. rewrite Z.sub_0_r.
  replace (Z.to_nat (Z.min s (Z.of_nat (List.length text))))
    with (Nat.min (Z.to_nat s) (List.length text)) by lia.
  replace (Z.to_nat (Z.min e (Z.of_nat (List.length text))))
    with (Nat.min (Z.to_nat e) (List.length text)) by lia.
  rewrite firstn_min_length, skipn_min_length.
  rewrite <- !app_assoc. reflexivity.
Qed.

Lemma redact_single_witness :
  redact (lit "abc") [(5, 9, lit "X")] = lit "abc[X]".
Proof.
  exact (eq_trans (redact_single (lit "abc") 5 9 (lit "X") ltac:(lia)) eq_refl).
Defined.

(** Inserting a span whose start is minimal puts it first. *)
Lemma insert_by_start_min (x : Span) (l : list Span) :
  Forall (fun y => span_start x <= span_start y) l ->
  insert_by_start x l = x :: l.
Proof.
  intros H. destruct l as [|y r]; [reflexivity|]. simpl.
  inversion H; subst.
  destruct (Z.leb_spec (span_start x) (span_start y)); [reflexivity | lia].
Qed.

(** On a sorted list, filtering and inserting commute. *)
Lemma filter_insert_by_start (p : Span -> bool) (x : Span) (l : list Span) :
  StronglySorted le_start l ->
  filter p (insert_by_start x l)
  = if p x then insert_by_start x (filter p l) else filter p l.
Proof.
  induction 1 as [|y r Hr IH Hy].
  - simpl. destruct (p x); reflexivity.
  - simpl insert_by_start.
    destruct (Z.leb_spec (span_start x) (span_start y)) as [Hxy|Hxy].
    + simpl. destruct (p x); [|reflexivity].
      symmetry. apply (insert_by_start_min x (filter p (y :: r))).
      apply Forall_forall. intros z Hz. apply filter_In in Hz. destruct Hz as [Hz _].
      destruct Hz as [<-|Hz]; [exact Hxy|].
      rewrite Forall_forall in Hy. specialize (Hy z Hz). unfold le_start in Hy. lia.
    + simpl. rewrite IH. destruct (p y), (p x); try reflexivity.
      simpl. destruct (Z.leb_spec (span_start x) (span_start y)); [lia | reflexivity].
Qed.

Lemma filter_sorted_by_start (p : Span -> bool) (l : list Span) :
  sorted_by_start (filter p l) = filter p (sorted_by_start l).
Proof.
  induction l as [|x r IH]; [reflexivity|]. simpl.
  rewrite filter_insert_by_start by apply sorted_by_start_sorted.
  destruct (p x); simpl; rewrite IH; reflexivity.
Qed.

Lemma accepted_from_usable (l : list Span) : forall last,
  0 <= last ->
  accepted_from last (filter usable l) = accepted_from last l.
Proof.
  induction l as [|sp r IH]; intros last Hlast; [reflexivity|]. simpl.
  destruct (usable sp) eqn:Eu; simpl.
  - destruct (skipped last sp) eqn:Es; [apply IH; exact Hlast|].
    rewrite IH; [reflexivity|]. apply skipped_false in Es. lia.
  - replace (skipped last sp) with true; [apply IH; exact Hlast|].
    symmetry. apply skipped_true. unfold usable in Eu.
    apply andb_false_iff in Eu. destruct Eu as [Eu|Eu].
    + apply Z.leb_gt in Eu. lia.
    + apply Z.ltb_ge in Eu. lia.
Qed.

(** X2 - spans that are empty or start before the text never matter: the
    output is the output for the list without them. *)
Theorem redact_ignores_unusable (text : str) (spans : list Span) :
  redact text spans = redact text (filter usable spans).
Proof.
  rewrite !redact_parts. unfold accepted.
  rewrite filter_sorted_by_start, accepted_from_usable by lia. reflexivity.
Qed.

(** A list sorted by start without two equal starts is the only such
    arrangement of its elements. *)
Lemma strictly_sorted_unique (l1 : list Span) : forall l2,
  StronglySorted le_start l1 -> StronglySorted le_start l2 ->
  NoDup (map span_start l1) -> Permutation l1 l2 -> l1 = l2.
Proof.
  induction l1 as [|x r1 IH]; intros l2 H1 H2 Hnd Hp.
  - apply Permutation_nil in Hp. symmetry. exact Hp.
  - destruct l2 as [|y r2];
      [apply Permutation_sym, Permutation_nil in Hp; discriminate Hp|].
    inversion H1 as [|? ? Hs1 Hx]; subst. inversion H2 as [|? ? Hs2 Hy]; subst.
    inversion Hnd as [|? ? Hnotin Hnd']; subst.
    assert (Exy : x = y).
    { assert (Hin : In x (y :: r2)) by (apply (Permutation_in _ Hp); left; reflexivity).
      destruct Hin as [Hin|Hin]; [symmetry; exact Hin|].
      assert (Hin' : In y (x :: r1))
        by (apply (Permutation_in _ (Permutation_sym Hp)); left; reflexivity).
      destruct Hin' as [Hin'|Hin']; [exact Hin'|].
      rewrite Forall_forall in Hx, Hy.
      specialize (Hx y Hin'). specialize (Hy x Hin). unfold le_start in Hx, Hy.
      exfalso. apply Hnotin.
      replace (span_start x) with (span_start y) by lia.
      apply in_map. exact Hin'. }
    subst y. f_equal. apply IH; try assumption.
    apply (Permutation_cons_inv Hp).
Qed.

(** X3 - the order in which the spans are handed over does not matter as
    long as no two of them start at the same position. *)
Theorem redact_order_independent (text : str) (spans spans' : list Span) :
  Permutation spans spans' ->
  NoDup (map span_start spans) ->
  redact text spans = redact text spans'.
Proof.
  intros Hp Hnd.
  assert (E : sorted_by_start spans = sorted_by_start spans').
  { apply strictly_sorted_unique; try apply sorted_by_start_sorted.
    - apply (Permutation_NoDup (l := map span_start spans)); [|exact Hnd].
      apply Permutation_map, Permutation_sym, sorted_by_start_perm.
    - eapply perm_trans; [apply sorted_by_start_perm|].
      eapply perm_trans; [exact Hp | apply Permutation_sym, sorted_by_start_perm]. }
  unfold redact. rewrite E. reflexivity.
Qed.

Lemma redact_order_independent_witness :
  redact (lit "Ann met Bob") [(8, 11, lit "B"); (0, 3, lit "A")]
  = redact (lit "Ann met Bob") [(0, 3, lit "A"); (8, 11, lit "B")].
Proof.
  apply redact_order_independent.
  - apply perm_swap.
  - repeat constructor; simpl; intuition discriminate.
Defined.

(** X4 - ties and first place.  A non-empty span that starts no earlier
    than position 0 and no later than any span listed after it is always
    accepted, and every other accepted span starts at or after its end: of
    several spans with the smallest start, the first listed wins. *)
Theorem first_listed_minimal_wins (a : Span) (rest : list Span) :
  0 <= span_start a < span_end a ->
  Forall (fun b => span_start a <= span_start b) rest ->
  accepted (a :: rest) = a :: accepted_from (span_end a) (sorted_by_start rest) /\
  Forall (fun b => span_end a <= span_start b)
    (accepted_from (span_end a) (sorted_by_start rest)).
Proof.
  intros Ha Hmin. split.
  - unfold accepted. simpl. rewrite insert_by_start_min.
    + simpl. replace (skipped 0 a) with false; [reflexivity|].
      symmetry. apply skipped_false. lia.
    + eapply Permutation_Forall;
        [apply Permutation_sym, sorted_by_start_perm | exact Hmin].
  - apply chain_lower, accepted_from_chain.
Qed.

Lemma first_listed_minimal_wins_witness :
  accepted [(0, 5, lit "PERSON"); (0, 3, lit "ORG"); (6, 8, lit "GPE")]
  = [(0, 5, lit "PERSON"); (6, 8, lit "GPE")].
Proof.
  destruct (first_listed_minimal_wins (0, 5, lit "PERSON")
              [(0, 3, lit "ORG"); (6, 8, lit "GPE")]) as [H _].
  - unfold span_start, span_end. simpl. lia.
  - repeat constructor; unfold span_start; simpl; lia.
  - exact H.
Defined.

Lemma insert_by_start_chain (a : Span) (l : list Span) : forall lo,
  chain lo l -> lo <= span_start a < span_end a ->
  Forall (disjoint a) l -> chain lo (insert_by_start a l).
Proof.
  induction l as [|y r IH]; intros lo Hc Ha Hd; simpl.
  - repeat split; lia.
  - destruct Hc as (H1 & H2 & H3). inversion Hd as [|? ? Hay Hd']; subst.
    unfold disjoint in Hay.
    destruct (Z.leb_spec (span_start a) (span_start y)) as [Hle|Hgt]; simpl.
    + repeat split; try lia. exact H3.
    + repeat split; try lia. apply IH; [exact H3 | lia | exact Hd'].
Qed.

(** X5 - nothing is lost without need.  When the spans are non-empty,
    start at position 0 or later and are pairwise disjoint, whatever their
    order, every one of them is accepted: the accepted list is the sorted
    list. *)
Theorem disjoint_spans_all_accepted (spans : list Span) :
  Forall (fun sp => 0 <= span_start sp < span_end sp) spans ->
  ForallOrdPairs disjoint spans ->
  accepted spans = sorted_by_start spans /\ Permutation (accepted spans) spans.
Proof.
  intros Hv Hd.
  assert (Hc : chain 0 (sorted_by_start spans)).
  { induction spans as [|a r IH]; [exact I|]. simpl.
    inversion Hv as [|? ? Ha Hv']; subst. inversion Hd as [|? ? Had Hd']; subst.
    apply insert_by_start_chain; [apply IH; assumption | exact Ha |].
    eapply Permutation_Forall;
      [apply Permutation_sym, sorted_by_start_perm | exact Had]. }
  assert (E : accepted spans = sorted_by_start spans)
    by (apply accepted_from_id; exact Hc).
  split; [exact E|]. rewrite E. apply sorted_by_start_perm.
Qed.

Lemma disjoint_spans_all_accepted_witness :
  accepted [(8, 11, lit "B"); (0, 3, lit "A"); (3, 8, lit "C")]
  = [(0, 3, lit "A"); (3, 8, lit "C"); (8, 11, lit "B")].
Proof.
  destruct (disjoint_spans_all_accepted
              [(8, 11, lit "B"); (0, 3, lit "A"); (3, 8, lit "C")]) as [H _].
  - repeat constructor; unfold span_start, span_end; simpl; lia.
  - repeat constructor; unfold disjoint, span_start, span_end; simpl; lia.
  - exact H.
Defined.

(* ================================================================== *)
(** * Further properties of the fallback scan *)
(* ================================================================== *)

Lemma token_body_prepend (l : list Span) (st : scan_state) (token : Token) :
  token_body (prepend l st) token = prepend l (token_body st token).
Proof.
  destruct st as [sp cs ce ct].
  unfold token_body, prepend, with_open, open_span, cleared. simpl.
  break_branches; simpl; rewrite <- ?app_assoc; reflexivity.
Qed.

Lemma sentence_end_prepend (l : list Span) (st : scan_state) :
  sentence_end (prepend l st) = prepend l (sentence_end st).
Proof.
  destruct st as [sp cs ce ct].
  unfold sentence_end, prepend, open_span, cleared. simpl.
  break_branches; simpl; rewrite <- ?app_assoc; reflexivity.
Qed.

Lemma tokens_prepend (l : list Span) (toks : list Token) : forall st,
  fold_left token_body toks (prepend l st)
  = prepend l (fold_left token_body toks st).
Proof.
  induction toks as [|t r IH]; intros st; simpl; [reflexivity|].
  rewrite token_body_prepend. apply IH.
Qed.

Lemma sentence_body_prepend (l : list Span) (st : scan_state) (sent : Sentence) :
  sentence_body (prepend l st) sent = prepend l (sentence_body st sent).
Proof.
  unfold sentence_body. rewrite tokens_prepend. apply sentence_end_prepend.
Qed.

Lemma token_body_together (st : scan_state) (token : Token) :
  cur_together st -> cur_together (token_body st token).
Proof.
  destruct st as [sp cs ce ct]. intros H.
  unfold cur_together in H. simpl in H.
  unfold token_body, with_open, open_span, cleared. simpl.
  destruct cs, ce, ct; try contradiction;
    break_branches; unfold cur_together; simpl; try exact I; try discriminate.
Qed.

Lemma tokens_together (toks : list Token) : forall st,
  cur_together st -> cur_together (fold_left token_body toks st).
Proof.
  induction toks as [|t r IH]; intros st H; simpl; [exact H|].
  apply IH, token_body_together, H.
Qed.

(** Between sentences no span is open. *)
Lemma sentence_end_cleared (st : scan_state) :
  cur_together st ->
  sentence_end st = cleared (spans_local (sentence_end st)).
Proof.
  destruct st as [sp cs ce ct]. unfold cur_together, sentence_end, open_span, cleared.
  simpl. destruct cs, ce, ct; try contradiction; reflexivity.
Qed.

Lemma sentences_from_cleared (sents : list Sentence) : forall l,
  fold_left sentence_body sents (cleared l) = cleared (l ++ scan_sentences sents).
Proof.
  induction sents as [|s r IH]; intros l.
  - simpl. unfold scan_sentences. simpl. rewrite app_nil_r. reflexivity.
  - assert (Hone : forall l0, sentence_body (cleared l0) s
                   = cleared (l0 ++ spans_local (sentence_body scan_init s))).
    { intros l0.
      replace (cleared l0) with (prepend l0 scan_init)
        by (unfold prepend, cleared; simpl; rewrite app_nil_r; reflexivity).
      rewrite sentence_body_prepend. unfold sentence_body at 1.
      rewrite sentence_end_cleared by (apply tokens_together; exact I).
      unfold prepend, cleared. simpl. reflexivity. }
    assert (Hrest : scan_sentences (s :: r)
                    = spans_local (sentence_body scan_init s) ++ scan_sentences r).
    { unfold scan_sentences at 1. simpl.
      change (sentence_body scan_init s) with (sentence_body (cleared []) s) at 1.
      rewrite Hone, IH. reflexivity. }
    simpl. rewrite Hone, IH, Hrest, app_assoc. reflexivity.
Qed.

(** X6 - the fallback works sentence by sentence: the spans of a document
    are the spans of its first sentences followed by the spans of the
    remaining ones; no span runs across a sentence boundary. *)
Theorem scan_sentences_app (a b : list Sentence) :
  scan_sentences (a ++ b) = scan_sentences a ++ scan_sentences b.
Proof.
  unfold scan_sentences at 1. rewrite fold_left_app.
  change scan_init with (cleared []).
  rewrite sentences_from_cleared. simpl. rewrite sentences_from_cleared.
  reflexivity.
Qed.

Lemma tokens_untagged (toks : list Token) (l : list Span) :
  Forall (fun t => untagged t = true) toks ->
  fold_left token_body toks (cleared l) = cleared l.
Proof.
  induction 1 as [|t r Ht _ IH]; simpl; [reflexivity|].
  replace (token_body (cleared l) t) with (cleared l); [exact IH|].
  unfold token_body, untagged in *. destruct (ner t) as [tag|].
  - rewrite Ht. reflexivity.
  - reflexivity.
Qed.

Lemma scan_sentences_untagged (sents : list Sentence) :
  Forall (fun s => Forall (fun t => untagged t = true) (sentence_tokens s)) sents ->
  scan_sentences sents = [].
Proof.
  induction 1 as [|s r Hs _ IH]; [reflexivity|].
  change (s :: r) with ([s] ++ r). rewrite scan_sentences_app, IH, app_nil_r.
  unfold scan_sentences. simpl. unfold sentence_body.
  fold (sentence_tokens s). change scan_init with (cleared []).
  rewrite (tokens_untagged _ _ Hs). reflexivity.
Qed.

(** X7 - nothing recognised, nothing changed.  When no entity record
    yields a span and every token is tagged O or has no tag, the text comes
    back as it was given. *)
Theorem untagged_document_unchanged (PyObj : Type) (py_int : PyObj -> option Z)
    (py_str : PyObj -> option str) (text : str) (doc : Document PyObj) :
  spans_from_doc_ents py_int py_str doc = [] ->
  Forall (fun s => Forall (fun t => untagged t = true) (sentence_tokens s))
    (doc_sentences doc) ->
  entity_spans py_int py_str doc = [] /\
  anonymize_with_stanza py_int py_str text doc = text.
Proof.
  intros Hp Hu.
  assert (E : entity_spans py_int py_str doc = []).
  { unfold entity_spans. rewrite Hp. unfold spans_from_tokens.
    fold (doc_sentences doc). apply scan_sentences_untagged, Hu. }
  split; [exact E|]. unfold anonymize_with_stanza. rewrite E.
  rewrite redact_parts. unfold accepted. simpl.
  unfold slice_from, clamp_index. simpl.
  rewrite Z.min_l by (unfold len; lia). apply app_nil_r.
Qed.

Lemma untagged_document_unchanged_witness :
  anonymize_with_stanza sample_int sample_str (lit "it rains.")
    (mk_doc (Some [mk_ent (Some (ObjInt 3)) None (Some (ObjStr (lit "X")))])
       (Some [mk_sentence (Some [mk_token (Some (lit "O")) 0 2;
                                 mk_token None 3 8]);
              mk_sentence None]))
  = lit "it rains.".
Proof.
  apply untagged_document_unchanged.
  - reflexivity.
  - repeat constructor.
Defined.

Lemma final_idx_snoc (l : list Span) (sp : Span) : forall a,
  final_idx a (l ++ [sp]) = span_end sp.
Proof. induction l as [|x r IH]; intros a; simpl; [reflexivity | apply IH]. Qed.

Lemma chain_snoc (l : list Span) (sp : Span) : forall a,
  chain a l -> final_idx a l <= span_start sp -> span_start sp < span_end sp ->
  chain a (l ++ [sp]).
Proof.
  induction l as [|x r IH]; intros a Hc Hf Hv; simpl in *.
  - repeat split; assumption.
  - destruct Hc as (H1 & H2 & H3). repeat split; try assumption.
    apply IH; assumption.
Qed.

Ltac close_scan_below :=
  unfold scan_below; simpl;
  repeat match goal with
         | |- _ /\ _ => split
         | |- chain _ (_ ++ [_]) => apply chain_snoc
         | |- context [final_idx _ (_ ++ [_])] => rewrite final_idx_snoc
         end;
  unfold span_start, span_end; simpl; try assumption; try lia.

Lemma token_body_below (st : scan_state) (token : Token) (lo : Z) :
  scan_below st lo ->
  lo <= start_char token -> start_char token < end_char token ->
  scan_below (token_body st token) (end_char token).
Proof.
  intros [Hc Hcur] Hlo Hne. destruct st as [sp cs ce ct]. simpl in *.
  unfold token_body, with_open, open_span, cleared. simpl.
  destruct cs as [cs|], ce as [ce|], ct as [ct|]; try contradiction;
    break_branches; unfold type_is in *;
    repeat match goal with
           | H : (if ?b then _ else _) = _ |- _ => destruct b
           | H : Some _ = Some _ |- _ => inversion H; subst; clear H
           | H : Some _ = None |- _ => discriminate H
           | H : None = Some _ |- _ => discriminate H
           end;
    close_scan_below.
Qed.

Lemma tokens_below (toks rest : list Token) : forall st lo,
  scan_below st lo -> laid_out lo (toks ++ rest) ->
  exists hi, scan_below (fold_left token_body toks st) hi /\ laid_out hi rest.
Proof.
  induction toks as [|t r IH]; intros st lo Hst Hl; simpl in *.
  - exists lo. split; assumption.
  - destruct Hl as (H1 & H2 & H3).
    apply (IH (token_body st t) (end_char t)); [|exact H3].
    apply (token_body_below st t lo); assumption.
Qed.

Lemma sentence_end_below (st : scan_state) (lo : Z) :
  scan_below st lo -> scan_below (sentence_end st) lo.
Proof.
  intros [Hc Hcur]. destruct st as [sp cs ce ct]. simpl in *.
  unfold sentence_end, open_span, cleared. simpl.
  destruct cs as [cs|], ce as [ce|], ct as [ct|]; try contradiction;
    close_scan_below.
Qed.

Lemma sentences_below (sents : list Sentence) : forall st lo,
  scan_below st lo -> laid_out lo (flat_map sentence_tokens sents) ->
  exists hi, scan_below (fold_left sentence_body sents st) hi.
Proof.
  induction sents as [|s r IH]; intros st lo Hst Hl; simpl in *.
  - exists lo. exact Hst.
  - destruct (tokens_below _ _ st lo Hst Hl) as (hi & Hhi & Hrest).
    apply (IH _ hi); [|exact Hrest].
    unfold sentence_body. fold (sentence_tokens s).
    apply sentence_end_below, Hhi.
Qed.

(** X8 - with a sound tokenisation nothing the fallback finds is lost.
    When the tokens of the document, read in order, are non-empty and each
    starts no earlier than the previous one ends, the fallback spans come
    out ordered and disjoint, so the sweep accepts every one of them. *)
Theorem laid_out_tokens_all_accepted (sents : list Sentence) :
  laid_out 0 (flat_map sentence_tokens sents) ->
  chain 0 (scan_sentences sents) /\
  accepted (scan_sentences sents) = scan_sentences sents.
Proof.
  intros Hl.
  assert (Hc : chain 0 (scan_sentences sents)).
  { destruct (sentences_below sents scan_init 0) as (hi & Hc & _);
      [split; simpl; [exact I | lia] | exact Hl | exact Hc]. }
  split; [exact Hc|]. unfold accepted.
  rewrite (sorted_by_start_chain _ 0 Hc). apply accepted_from_id, Hc.
Qed.

Lemma laid_out_tokens_all_accepted_witness :
  accepted
    (scan_sentences
       [mk_sentence (Some [mk_token (Some (lit "B-PERSON")) 0 6;
                           mk_token (Some (lit "I-ORG")) 7 12;
                           mk_token (Some (lit "S-GPE")) 13 20]);
        mk_sentence (Some [mk_token (Some (lit "E-LOC")) 21 25])])
  = [(7, 12, lit "ORG"); (13, 20, lit "GPE"); (21, 25, lit "LOC")].
Proof.
  refine (eq_trans (proj2 (laid_out_tokens_all_accepted _ _)) eq_refl).
  simpl. lia.
Defined.

Lemma from_tokens_own (toks : list Token) (t : Token) (tag : str) :
  In t toks -> ner t = Some tag ->
  from_tokens toks (start_char t, end_char t, last (split_on "-"%char tag) []).
Proof. intros Hin Hner. exists t, t, tag. repeat split; assumption. Qed.

Lemma from_tokens_extend (toks : list Token) (t : Token) (cs ce : Z) (ct : str) :
  In t toks -> from_tokens toks (cs, ce, ct) ->
  from_tokens toks (cs, end_char t, ct).
Proof.
  intros Hin (t1 & t2 & tag & H1 & H2 & H3 & H4 & H5 & H6).
  exists t1, t, tag. repeat split; assumption.
Qed.

Lemma token_body_from (toks : list Token) (st : scan_state) (t : Token) :
  In t toks -> scan_from toks st -> scan_from toks (token_body st t).
Proof.
  intros Hin [Hsp Hcur]. destruct st as [sp cs ce ct]. simpl in *.
  unfold token_body, with_open, open_span, cleared. simpl.
  destruct (ner t) as [tag|] eqn:Hner;
    destruct cs as [cs|], ce as [ce|], ct as [ct|]; try contradiction;
    break_branches; unfold type_is in *;
    repeat match goal with
           | H : (if ?b then _ else _) = _ |- _ => destruct b
           | H : Some _ = Some _ |- _ => inversion H; subst; clear H
           | H : Some _ = None |- _ => discriminate H
           | H : None = Some _ |- _ => discriminate H
           | H : true = false |- _ => discriminate H
           end;
    unfold scan_from; simpl; rewrite ?Forall_app;
    repeat match goal with
           | |- _ /\ _ => split
           | |- Forall _ [_] => constructor; [|constructor]
           end;
    try assumption; try exact I;
    try (apply from_tokens_own; assumption);
    try (eapply from_tokens_extend; [exact Hin | eassumption]);
    try solve [exfalso;
               match goal with
               | H : str_eqb ?a ?a = false |- _ =>
                   rewrite str_eqb_refl in H; discriminate H
               end].
Qed.

Lemma tokens_from (toks : list Token) (l : list Token) : forall st,
  incl l toks -> scan_from toks st -> scan_from toks (fold_left token_body l st).
Proof.
  induction l as [|t r IH]; intros st Hincl Hst; simpl; [exact Hst|].
  apply IH; [intros x Hx; apply Hincl; right; exact Hx|].
  apply token_body_from; [apply Hincl; left; reflexivity | exact Hst].
Qed.

Lemma sentence_from (s : Sentence) :
  Forall (from_tokens (sentence_tokens s)) (scan_sentences [s]).
Proof.
  unfold scan_sentences. simpl. unfold sentence_body. fold (sentence_tokens s).
  pose proof (tokens_from (sentence_tokens s) (sentence_tokens s) scan_init
                (incl_refl _) (conj (Forall_nil _) I)) as [Hsp Hcur].
  destruct (fold_left token_body (sentence_tokens s) scan_init) as [sp cs ce ct].
  unfold sentence_end, open_span, cleared. simpl in *.
  destruct cs, ce, ct; try contradiction; simpl; try exact Hsp.
  rewrite Forall_app. split; [exact Hsp | constructor; [exact Hcur | constructor]].
Qed.

(** X9 - the fallback invents nothing.  Every span it returns starts at
    the start of a token, carries the type part of that token's tag, and
    ends at the end of a token of the same sentence. *)
Theorem fallback_spans_from_tokens (sents : list Sentence) (sp : Span) :
  In sp (scan_sentences sents) ->
  exists sent, In sent sents /\ from_tokens (sentence_tokens sent) sp.
Proof.
  induction sents as [|s r IH]; intros Hin; [contradiction|].
  change (s :: r) with ([s] ++ r) in Hin. rewrite scan_sentences_app in Hin.
  apply in_app_or in Hin. destruct Hin as [Hin|Hin].
  - exists s. split; [left; reflexivity|].
    pose proof (sentence_from s) as H. rewrite Forall_forall in H. apply H, Hin.
  - destruct (IH Hin) as (sent & H1 & H2). exists sent. split; [right|]; assumption.
Qed.

Lemma fallback_spans_from_tokens_witness :
  exists sent,
    In sent [mk_sentence (Some [mk_token (Some (lit "B-ORG")) 2 5;
                                mk_token (Some (lit "L-ORG")) 6 9])] /\
    from_tokens (sentence_tokens sent) (2, 9, lit "ORG").
Proof.
  apply fallback_spans_from_tokens. left. reflexivity.
Defined.

(* ================================================================== *)
(** * Tags *)
(* ================================================================== *)

Lemma split_on_no_sep (sep : ascii) (s : str) :
  ~ In sep s -> split_on sep s = [s].
Proof.
  induction s as [|c r IH]; intros H; simpl; [reflexivity|].
  destruct (Ascii.eqb_spec c sep) as [->|Hne]; [exfalso; apply H; left; reflexivity|].
  rewrite IH; [reflexivity|]. intros Hin. apply H. right. exact Hin.
Qed.

Lemma split_on_first (sep : ascii) (p r : str) :
  ~ In sep p -> split_on sep (p ++ sep :: r) = p :: split_on sep r.
Proof.
  induction p as [|c p IH]; intros H; simpl.
  - rewrite Ascii.eqb_refl. reflexivity.
  - destruct (Ascii.eqb_spec c sep) as [->|Hne]; [exfalso; apply H; left; reflexivity|].
    rewrite IH; [reflexivity|]. intros Hin. apply H. right. exact Hin.
Qed.

Lemma split_on_front (sep : ascii) (p r : str) :
  exists f fs, split_on sep (p ++ sep :: r) = (f :: fs) ++ split_on sep r.
Proof.
  induction p as [|c p (f & fs & IH)]; simpl.
  - rewrite Ascii.eqb_refl. exists [], []. reflexivity.
  - destruct (Ascii.eqb c sep).
    + exists [], (f :: fs). rewrite IH. reflexivity.
    + rewrite IH. exists (c :: f), fs. reflexivity.
Qed.

Lemma last_app_nonempty {A : Type} (l1 l2 : list A) (d : A) :
  l2 <> [] -> last (l1 ++ l2) d = last l2 d.
Proof.
  intros H. induction l1 as [|x r IH]; [reflexivity|].
  simpl. destruct (r ++ l2) eqn:E; [|exact IH].
  apply app_eq_nil in E. destruct E as [_ E]. contradiction.
Qed.

(** X10 - how a tag is read.  The prefix is what stands before the first
    dash and the type what stands after the last one, so that a type
    containing dashes loses all but its last component; a tag without a
    dash is its own prefix and its own type. *)
Theorem tag_components (p r : str) :
  (~ In "-"%char p -> tag_prefix (p ++ "-"%char :: r) = p) /\
  tag_type (p ++ "-"%char :: r) = tag_type r /\
  (~ In "-"%char r -> tag_type (p ++ "-"%char :: r) = r) /\
  (~ In "-"%char p -> tag_prefix p = p /\ tag_type p = p).
Proof.
  assert (Hty : tag_type (p ++ "-"%char :: r) = tag_type r).
  { unfold tag_type. destruct (split_on_front "-"%char p r) as (f & fs & ->).
    apply last_app_nonempty, split_on_nonempty. }
  split; [|split; [exact Hty | split]].
  - intros H. unfold tag_prefix. rewrite split_on_first by exact H. reflexivity.
  - intros H. rewrite Hty. unfold tag_type. rewrite split_on_no_sep by exact H.
    reflexivity.
  - intros H. unfold tag_prefix, tag_type. rewrite split_on_no_sep by exact H.
    split; reflexivity.
Qed.

Lemma tag_components_witness :
  tag_prefix (lit "B-PERSON") = lit "B" /\
  tag_type (lit "I-WORK-OF-ART") = lit "ART" /\
  tag_type (lit "PERSON") = lit "PERSON".
Proof.
  split; [|split].
  - apply (proj1 (tag_components (lit "B") (lit "PERSON"))).
    intros H. simpl in H. repeat (destruct H as [H|H]; [discriminate H|]). exact H.
  - change (lit "I-WORK-OF-ART") with (lit "I-WORK-OF" ++ "-"%char :: lit "ART").
    rewrite (proj1 (proj2 (tag_components (lit "I-WORK-OF") (lit "ART")))).
    reflexivity.
  - apply (proj2 (proj2 (proj2 (tag_components (lit "PERSON") [])))).
    intros H. simpl in H. repeat (destruct H as [H|H]; [discriminate H|]). exact H.
Defined.

(* ================================================================== *)
(** * Well-formed runs of tags *)
(* ================================================================== *)

Lemma tagged_not_O (prefix ty : str) (token : Token) (tag : str) :
  ner token = Some tag -> tag_prefix tag = prefix -> prefix <> lit "O" ->
  str_eqb tag (lit "O") = false.
Proof.
  intros _ Hp Hne. destruct (str_eqb tag (lit "O")) eqn:E; [|reflexivity].
  apply str_eqb_eq in E. subst tag. exfalso. apply Hne. rewrite <- Hp. reflexivity.
Qed.

Lemma token_body_begin (ty : str) (st : scan_state) (token : Token) :
  tagged (lit "B") ty token ->
  token_body st token
  = mk_scan (with_open st) (Some (start_char token)) (Some (end_char token))
      (Some ty).
Proof.
  intros (tag & Hner & Hp & Ht). unfold token_body. rewrite Hner.
  rewrite (tagged_not_O _ ty token tag Hner Hp) by discriminate.
  fold (tag_prefix tag). fold (tag_type tag). rewrite Hp, Ht. reflexivity.
Qed.

Lemma token_body_inside (ty : str) (l : list Span) (cs ce : Z) (token : Token) :
  tagged (lit "I") ty token ->
  token_body (mk_scan l (Some cs) (Some ce) (Some ty)) token
  = mk_scan l (Some cs) (Some (end_char token)) (Some ty).
Proof.
  intros (tag & Hner & Hp & Ht). unfold token_body. rewrite Hner.
  rewrite (tagged_not_O _ ty token tag Hner Hp) by discriminate.
  fold (tag_prefix tag). fold (tag_type tag). rewrite Hp, Ht. simpl.
  rewrite str_eqb_refl. reflexivity.
Qed.

Lemma token_body_closing (prefix ty : str) (l : list Span) (cs ce : Z) (token : Token) :
  prefix = lit "E" \/ prefix = lit "L" ->
  tagged prefix ty token ->
  token_body (mk_scan l (Some cs) (Some ce) (Some ty)) token
  = cleared (l ++ [(cs, end_char token, ty)]).
Proof.
  intros Hpre (tag & Hner & Hp & Ht). unfold token_body. rewrite Hner.
  rewrite (tagged_not_O _ ty token tag Hner Hp)
    by (destruct Hpre as [-> | ->]; discriminate).
  fold (tag_prefix tag). fold (tag_type tag). rewrite Hp, Ht. simpl.
  rewrite str_eqb_refl. destruct Hpre as [-> | ->]; reflexivity.
Qed.

Lemma last_cons_default {A : Type} (l : list A) : forall x d : A,
  last (x :: l) d = last l x.
Proof.
  induction l as [|y r IH]; intros x d; [reflexivity|].
  change (last (x :: y :: r) d) with (last (y :: r) d).
  rewrite !IH. reflexivity.
Qed.

Lemma tokens_inside (ty : str) (l : list Span) (cs : Z) (inner : list Token) :
  forall ce,
  Forall (tagged (lit "I") ty) inner ->
  fold_left token_body inner (mk_scan l (Some cs) (Some ce) (Some ty))
  = mk_scan l (Some cs) (Some (last (map end_char inner) ce)) (Some ty).
Proof.
  induction inner as [|t r IH]; intros ce H; [reflexivity|].
  inversion H as [|? ? Ht Hr]; subst. simpl fold_left.
  rewrite (token_body_inside ty l cs ce t Ht), (IH _ Hr).
  simpl map. rewrite last_cons_default. reflexivity.
Qed.

(** X11 - an entity of several tokens.  A sentence made of a token tagged
    B-T followed by tokens tagged I-T yields the one span from the start
    of the first token to the end of the last, labelled T; so it does when
    a last token tagged E-T or L-T closes the run. *)
Theorem tagged_run_one_span (ty : str) (b : Token) (inner : list Token) :
  tagged (lit "B") ty b ->
  Forall (tagged (lit "I") ty) inner ->
  scan_sentences [mk_sentence (Some (b :: inner))]
  = [(start_char b, last (map end_char inner) (end_char b), ty)] /\
  (forall (prefix : str) (e : Token),
     prefix = lit "E" \/ prefix = lit "L" -> tagged prefix ty e ->
     scan_sentences [mk_sentence (Some (b :: inner ++ [e]))]
     = [(start_char b, end_char e, ty)]).
Proof.
  intros Hb Hin. split.
  - unfold scan_sentences. simpl. unfold sentence_body. simpl.
    rewrite (token_body_begin ty scan_init b Hb). unfold with_open. simpl.
    rewrite (tokens_inside ty [] _ inner _ Hin). reflexivity.
  - intros prefix e Hpre He.
    unfold scan_sentences. simpl. unfold sentence_body. simpl.
    rewrite (token_body_begin ty scan_init b Hb). unfold with_open. simpl.
    rewrite fold_left_app, (tokens_inside ty [] _ inner _ Hin). simpl.
    rewrite (token_body_closing prefix ty [] _ _ e Hpre He). reflexivity.
Qed.

Lemma tagged_run_one_span_witness :
  scan_sentences
    [mk_sentence (Some [mk_token (Some (lit "B-ORG")) 4 9;
                        mk_token (Some (lit "I-ORG")) 10 12;
                        mk_token (Some (lit "I-ORG")) 13 20])]
  = [(4, 20, lit "ORG")].
Proof.
  apply (proj1 (tagged_run_one_span (lit "ORG")
                  (mk_token (Some (lit "B-ORG")) 4 9)
                  [mk_token (Some (lit "I-ORG")) 10 12;
                   mk_token (Some (lit "I-ORG")) 13 20]
                  (ex_intro _ (lit "B-ORG") (conj eq_refl (conj eq_refl eq_refl)))
                  ltac:(repeat constructor;
                        exists (lit "I-ORG"); repeat split))).
Defined.

(** X17 - what a continuation of another type costs.  When a token
    tagged B-T1 is followed by a token tagged I-, E- or L-T2 with another
    type, the second token is reported alone and the entity opened by the
    first is not reported at all. *)
Theorem mismatched_continuation_drops_open (prefix ty1 ty2 : str) (b t : Token) :
  tagged (lit "B") ty1 b ->
  in_tuple prefix [lit "I"; lit "E"; lit "L"] = true ->
  tagged prefix ty2 t ->
  ty1 <> ty2 ->
  scan_sentences [mk_sentence (Some [b; t])]
  = [(start_char t, end_char t, ty2)].
Proof.
  intros Hb Hpre (tag & Hner & Hp & Ht) Hne.
  unfold scan_sentences. simpl. unfold sentence_body. simpl.
  rewrite (token_body_begin ty1 scan_init b Hb). unfold with_open. simpl.
  rewrite (token_body_standalone _ t tag Hner).
  - rewrite Ht. reflexivity.
  - rewrite Hp. exact Hpre.
  - right. rewrite Ht. simpl.
    destruct (str_eqb ty1 ty2) eqn:E; [|reflexivity].
    apply str_eqb_eq in E. contradiction.
Qed.

Lemma mismatched_continuation_drops_open_witness :
  scan_sentences
    [mk_sentence (Some [mk_token (Some (lit "B-PERSON")) 0 6;
                        mk_token (Some (lit "I-ORG")) 7 12])]
  = [(7, 12, lit "ORG")].
Proof.
  apply (mismatched_continuation_drops_open (lit "I") (lit "PERSON") (lit "ORG")
           (mk_token (Some (lit "B-PERSON")) 0 6)
           (mk_token (Some (lit "I-ORG")) 7 12)).
  - exists (lit "B-PERSON"). repeat split.
  - reflexivity.
  - exists (lit "I-ORG"). repeat split.
  - discriminate.
Defined.

(* ================================================================== *)
(** * When the fallback is used *)
(* ================================================================== *)

(** X12 - the fallback is used exactly when no entity record yields a
    span, also when there are records but all are skipped; as soon as one
    record yields a span the result is the list of those spans and the
    token tags play no part in the output. *)
Theorem fallback_trigger (PyObj : Type) (py_int : PyObj -> option Z)
    (py_str : PyObj -> option str) (l : list (Ent PyObj))
    (sents : option (list Sentence)) :
  (Forall (fun ent => contribution py_int py_str ent = []) l ->
   entity_spans py_int py_str (mk_doc (Some l) sents)
   = spans_from_tokens (mk_doc (Some l) sents)) /\
  (Exists (fun ent => contribution py_int py_str ent <> []) l ->
   entity_spans py_int py_str (mk_doc (Some l) sents)
   = flat_map (contribution py_int py_str) l /\
   forall (text : str) (sents' : option (list Sentence)),
     anonymize_with_stanza py_int py_str text (mk_doc (Some l) sents)
     = anonymize_with_stanza py_int py_str text (mk_doc (Some l) sents')).
Proof.
  split.
  - intros H. unfold entity_spans. rewrite spans_from_doc_ents_flat.
    replace (flat_map (contribution py_int py_str) l) with (@nil Span);
      [reflexivity|].
    symmetry. induction H as [|ent r He _ IH]; [reflexivity|].
    simpl. rewrite He, IH. reflexivity.
  - intros H.
    assert (Hne : flat_map (contribution py_int py_str) l <> []).
    { induction H as [ent r He|ent r _ IH]; simpl; intros E;
        apply app_eq_nil in E; destruct E as [E1 E2]; auto. }
    assert (E : forall s, entity_spans py_int py_str (mk_doc (Some l) s)
                          = flat_map (contribution py_int py_str) l).
    { intros s. unfold entity_spans. rewrite spans_from_doc_ents_flat.
      destruct (flat_map (contribution py_int py_str) l); [contradiction|].
      reflexivity. }
    split; [apply E|]. intros text sents'. unfold anonymize_with_stanza.
    rewrite !E. reflexivity.
Qed.

Lemma fallback_trigger_witness :
  entity_spans sample_int sample_str
    (mk_doc (Some [mk_ent (Some (ObjInt 5)) (Some (ObjInt 5)) (Some (ObjStr (lit "ORG")));
                   mk_ent None (Some (ObjInt 7)) (Some (ObjStr (lit "GPE")))])
       (Some [mk_sentence (Some [mk_token (Some (lit "S-LOC")) 0 4])]))
  = [(0, 4, lit "LOC")] /\
  entity_spans sample_int sample_str
    (mk_doc (Some [mk_ent (Some (ObjInt 5)) (Some (ObjInt 8)) (Some (ObjStr (lit "ORG")))])
       (Some [mk_sentence (Some [mk_token (Some (lit "S-LOC")) 0 4])]))
  = [(5, 8, lit "ORG")].
Proof.
  split.
  - refine (eq_trans (proj1 (fallback_trigger _ sample_int sample_str _ _) _) eq_refl).
    repeat constructor.
  - refine (proj1 (proj2 (fallback_trigger _ sample_int sample_str _ _) _)).
    apply Exists_cons_hd. discriminate.
Defined.

(* ================================================================== *)
(** * The pipeline cache *)
(* ================================================================== *)

Section PipelineCacheFacts.

Context {Pipeline Exc : Type}.

Lemma ensure_calls_cached (p : Pipeline) (answers : list (library_answer Pipeline Exc)) :
  ensure_calls (Some p) answers
  = (repeat (inl p) (List.length answers), Some p, []).
Proof.
  induction answers as [|a r IH]; [reflexivity|].
  simpl. rewrite IH. reflexivity.
Qed.

Lemma In_repeat_inl (c x : Pipeline) (n : nat) :
  In (@inl Pipeline Exc x) (repeat (inl c) n) -> x = c.
Proof. intros H. apply repeat_spec in H. congruence. Qed.

(** X13 - one pipeline at most.  In any series of calls, whatever the
    library answers, all the calls that return hand out the same pipeline
    object. *)
Theorem ensure_pipeline_singleton (cache : option Pipeline)
    (answers : list (library_answer Pipeline Exc)) (p q : Pipeline) :
  In (inl p) (fst (fst (ensure_calls cache answers))) ->
  In (inl q) (fst (fst (ensure_calls cache answers))) ->
  p = q.
Proof.
  revert cache. induction answers as [|a r IH]; intros cache Hp Hq;
    [contradiction|].
  destruct cache as [c|].
  - rewrite ensure_calls_cached in Hp, Hq.
    apply (In_repeat_inl c p (List.length (a :: r))) in Hp.
    apply (In_repeat_inl c q (List.length (a :: r))) in Hq. congruence.
  - simpl in Hp, Hq. destruct (pipeline_answer a) as [c|e] eqn:Ea.
    + rewrite ensure_calls_cached in Hp, Hq.
      apply (In_repeat_inl c p (S (List.length r))) in Hp.
      apply (In_repeat_inl c q (S (List.length r))) in Hq. congruence.
    + destruct (ensure_calls None r) as [[rs c2] calls2] eqn:Er.
      simpl in Hp, Hq. specialize (IH None). rewrite Er in IH. simpl in IH.
      destruct Hp as [Hp|Hp]; [discriminate Hp|].
      destruct Hq as [Hq|Hq]; [discriminate Hq|].
      apply IH; assumption.
Qed.


End PipelineCacheFacts.


Lemma ensure_pipeline_singleton_witness :
  fst (fst (ensure_calls (Pipeline := nat) (Exc := str) None
              [mk_answer (inl tt) (inr (lit "no model"));
               mk_answer (inr (lit "offline")) (inl 7%nat);
               mk_answer (inl tt) (inl 8%nat)]))
  = [inr (lit "no model"); inl 7%nat; inl 7%nat] /\
  7%nat = 7%nat.
Proof.
  split; [reflexivity|].
  apply (ensure_pipeline_singleton (Pipeline := nat) (Exc := str) None
           [mk_answer (inl tt) (inr (lit "no model"));
            mk_answer (inr (lit "offline")) (inl 7%nat);
            mk_answer (inl tt) (inl 8%nat)] 7%nat 7%nat);
    simpl; auto.
Defined.

(* ================================================================== *)
(** * Loading the pipeline from the window *)
(* ================================================================== *)

Lemma one_element_split {A : Type} (before after : list A) (x y : A) :
  [x] = before ++ y :: after -> before = [] /\ after = [] /\ x = y.
Proof.
  destruct before as [|b before]; simpl; intros H.
  - inversion H. auto.
  - inversion H as [[Hb Hrest]]. destruct before; discriminate Hrest.
Qed.

Lemma gui_step_ok (g g' : gui) : gui_step g g' -> gui_ok g -> gui_ok g'.
Proof.
  intros Hstep Hok. unfold gui_ok in *.
  destruct Hstep as [g Hm Hl | g Hm Hl | g Hm Hl | g Hm Hl | g Hm | g Hm
                    | g before pc after w' pc' Hsplit Hload | g status info];
    simpl.
  - exact Hok.
  - destruct (loaders g) as [|pc [|pc2 rest]]; [| |contradiction].
    + rewrite Hm in Hok. exact Hok.
    + destruct Hok as [Hf _]. split; [exact Hf|]. right. split; [reflexivity|].
      rewrite Hl in Hf. destruct pc as [| | | | | | | | |[|]]; simpl in Hf;
        inversion Hf; reflexivity.
  - destruct (loaders g) as [|pc [|pc2 rest]]; [| |contradiction].
    + destruct Hok as [Hf _]. congruence.
    + destruct Hok as [Hf _]. split; [exact Hf | left; reflexivity].
  - destruct (loaders g) as [|pc [|pc2 rest]]; [| |contradiction].
    + rewrite Hm in Hok. exact Hok.
    + destruct Hok as [_ [Hi | [_ Ht]]]; congruence.
  - destruct (loaders g) as [|pc [|pc2 rest]]; [| |contradiction].
    + destruct Hok as [Hf _]. split; [exact Hf | reflexivity].
    + destruct Hok as [_ [Hi | [Hi _]]]; congruence.
  - destruct (loaders g) as [|pc [|pc2 rest]]; [| |contradiction]; simpl.
    + rewrite Hm in Hok. destruct Hok as [H1 H2]. rewrite H1, H2.
      split; [reflexivity | left; reflexivity].
    + destruct Hok as [_ [Hi | [Hi _]]]; congruence.
  - rewrite Hsplit in Hok.
    destruct before as [|b1 before]; simpl in *.
    + destruct after as [|a1 after]; [|contradiction].
      destruct Hok as [Hf Hmain].
      inversion Hload; subst; simpl in *; inversion Hf; subst;
        (split; [try reflexivity; try (rewrite <- ?H0, <- ?H1; reflexivity)|]);
        try (destruct Hmain as [Hi | [Hi Ht]];
             [left; exact Hi | try (right; split; [exact Hi | reflexivity]);
                               try congruence]).
    + destruct before; simpl in *; contradiction.
  - destruct (loaders g) as [|pc [|pc2 rest]]; [| |contradiction]; exact Hok.
Qed.

Lemma gui_steps_ok (g g' : gui) : gui_steps g g' -> gui_ok g -> gui_ok g'.
Proof.
  induction 1 as [g|g1 g2 g3 _ IH Hstep]; intros Hok; [exact Hok|].
  apply (gui_step_ok g2 g3 Hstep), IH, Hok.
Qed.

Lemma gui_init_ok : gui_ok gui_init.
Proof. split; reflexivity. Qed.

(** X15 - one load at most.  However the main thread, the loader thread
    and the other writers of the two texts interleave, the window never
    starts a second loader thread. *)
Theorem one_loader_thread (g : gui) :
  gui_steps gui_init g -> (List.length (loaders g) <= 1)%nat.
Proof.
  intros H. pose proof (gui_steps_ok _ _ H gui_init_ok) as Hok.
  unfold gui_ok in Hok. destruct (loaders g) as [|pc [|pc2 rest]]; simpl;
    [lia | lia | contradiction].
Qed.

Lemma one_loader_thread_witness :
  (List.length
     (loaders {| root := {| status_text := status_text widget_init;
                            model_info_text := model_info_text widget_init;
                            pipeline_loaded := false;
                            pipeline_loading := true |};
                 main := Idle;
                 loaders := [AtStatusChecking] |}) <= 1)%nat.
Proof.
  apply one_loader_thread.
  eapply gui_then; [eapply gui_then; [eapply gui_then;
    [eapply gui_then; [apply gui_here|] |] |] |].
  - apply main_not_loading; reflexivity.
  - apply main_not_loaded; reflexivity.
  - apply main_set_loading; reflexivity.
  - apply (main_start_thread
             {| root := {| status_text := status_text widget_init;
                           model_info_text := model_info_text widget_init;
                           pipeline_loaded := false;
                           pipeline_loading := true |};
                main := StartThread; loaders := [] |}). reflexivity.
Defined.

Lemma gui_failed_step (g g' : gui) : gui_step g g' -> gui_failed g -> gui_failed g'.
Proof.
  intros Hstep (Hl & Hm & Hloaded & Hloading). unfold gui_failed.
  destruct Hstep as [g Hm' Hl' | g Hm' Hl' | g Hm' Hl' | g Hm' Hl' | g Hm' | g Hm'
                    | g before pc after w' pc' Hsplit Hload | g status info];
    simpl; try congruence; try (repeat split; assumption).
  rewrite Hl in Hsplit. apply one_element_split in Hsplit.
  destruct Hsplit as (_ & _ & <-). inversion Hload.
Qed.

(** X16 - a failed load is final.  Once the loader thread has ended in
    its exception handler, [pipeline_loaded] stays false and no other
    loader thread is started, whatever happens next: the handler leaves
    [_pipeline_loading] set, and [ensure_pipeline] starts nothing while it
    is. *)
Theorem failed_load_never_retried (g g' : gui) :
  gui_steps gui_init g ->
  loaders g = [Finished false] ->
  gui_steps g g' ->
  pipeline_loaded (root g') = false /\ loaders g' = [Finished false].
Proof.
  intros Hreach Hfin Hnext.
  assert (Hfailed : gui_failed g).
  { pose proof (gui_steps_ok _ _ Hreach gui_init_ok) as Hok.
    unfold gui_ok in Hok. rewrite Hfin in Hok. simpl in Hok.
    destruct Hok as [Hf Hmain]. inversion Hf as [[H1 H2]].
    destruct Hmain as [Hi | [_ Ht]]; [|congruence].
    repeat split; assumption. }
  assert (Hfailed' : gui_failed g').
  { clear Hreach Hfin. induction Hnext as [g|g1 g2 g3 _ IH Hstep]; [exact Hfailed|].
    apply (gui_failed_step g2 g3 Hstep), IH, Hfailed. }
  destruct Hfailed' as (H1 & _ & H2 & _). split; assumption.
Qed.

Lemma gui_steps_first (g1 g2 g3 : gui) :
  gui_step g1 g2 -> gui_steps g2 g3 -> gui_steps g1 g3.
Proof.
  intros H12 H23. induction H23 as [g|a b c _ IH Hstep].
  - eapply gui_then; [apply gui_here | exact H12].
  - eapply gui_then; [apply IH; exact H12 | exact Hstep].
Qed.

(** X16, at the run in which [on_start] starts the loader, the pipeline
    cannot be built, and the user then presses the button again. *)
Lemma failed_load_never_retried_witness :
  let failed :=
    {| root := {| status_text := lit "Failed to load Stanza: no model";
                  model_info_text := lit "Models: not available";
                  pipeline_loaded := false;
                  pipeline_loading := true |};
       main := Idle;
       loaders := [Finished false] |} in
  gui_steps gui_init failed /\
  pipeline_loaded (root failed) = false /\ loaders failed = [Finished false].
Proof.
  intros failed.
  assert (Hreach : gui_steps gui_init failed).
  { eapply gui_steps_first; [apply main_not_loading; reflexivity|].
    eapply gui_steps_first; [apply main_not_loaded; reflexivity|].
    eapply gui_steps_first; [apply main_set_loading; reflexivity|].
    eapply gui_steps_first; [apply main_start_thread; reflexivity|].
    eapply gui_steps_first;
      [eapply (loader_runs _ [] _ []); [reflexivity | apply load_status_checking]|].
    eapply gui_steps_first;
      [eapply (loader_runs _ [] _ []); [reflexivity | apply load_info_locating]|].
    eapply gui_steps_first;
      [eapply (loader_runs _ [] _ []);
       [reflexivity | apply (load_ensure_raises _ (lit "no model"))]|].
    eapply gui_steps_first;
      [eapply (loader_runs _ [] _ []); [reflexivity | apply load_status_failed]|].
    eapply gui_steps_first;
      [eapply (loader_runs _ [] _ []); [reflexivity | apply load_info_unavailable]|].
    apply gui_here. }
  split; [exact Hreach|].
  apply (failed_load_never_retried failed failed Hreach eq_refl).
  eapply gui_then; [apply gui_here|].
  apply (main_is_loading failed); reflexivity.
Defined.
